(** * genstatetm: the state machine compiler of [main.go]

    [compile] turns a [Description] (states, transitions, callbacks) into
    the text of a Go state machine.  This development embeds

    - the compiler itself ([camel], [writef], [compile]) as it is written:
      a buffer threaded through the calls, [panic] as an outcome, the two
      Go maps as [gmap]s whose iteration order is chosen by the runtime;
    - the routines the compiler writes ([SetState], [Event]) as small
      syntax trees with the meaning of the Go statements they print to,
      together with the proof that printing them gives the text [compile]
      emits;

    and settles what the specification says about both.

    Left out of the model: the machine's lock ([Event] and [SetState]
    hold it from entry to return, so calls are taken one at a time), and
    null pointers in a description.  Callback names are taken to be Go
    identifiers: the generated call [name(event, sm.state)] calls the
    callback of that name and does nothing else. *)

From Stdlib Require Import String Ascii NArith Lia.
From stdpp Require Import base option list strings gmap fin_maps.

Local Open Scope string_scope.
Local Open Scope list_scope.

(** ** Go strings

    A Go string is a sequence of bytes: [string] (a list of 8-bit [ascii])
    is exactly that. *)

Module GoString.

Definition byte_of (n : N) : ascii := ascii_of_N n.

(** The double quote, tab and newline have no spelling inside a literal. *)
Definition dq : string := String (byte_of 34) EmptyString.
Definition tab : ascii := byte_of 9.
Definition nl : ascii := byte_of 10.

(** [lit] reads a literal the way the Go scanner reads an interpreted
    string literal, for the two escapes [main.go] uses besides the
    escaped quote: backslash-n and backslash-t.  Formats below are
    written as they stand in the source and passed through [lit]. *)
Fixpoint lit (s : string) : string :=
  match s with
  | EmptyString => EmptyString
  | String "\" (String "n" r) => String nl (lit r)
  | String "\" (String "t" r) => String tab (lit r)
  | String c r => String c (lit r)
  end.

(** [unicode.ToUpper] on the code points below 256, the only ones
    [camel] can pass to it: the ASCII letters, the Latin-1 letters
    (all but the multiplication and division signs), the micro sign
    (whose capital is the Greek MU, U+039C) and y with diaeresis (whose
    capital is U+0178). *)
Definition unicode_ToUpper (r : N) : N :=
  if ((97 <=? r) && (r <=? 122))%N then (r - 32)%N
  else if (r =? 181)%N then 924%N
  else if ((224 <=? r) && (r <=? 246))%N then (r - 32)%N
  else if ((248 <=? r) && (r <=? 254))%N then (r - 32)%N
  else if (r =? 255)%N then 376%N
  else r.

(** [utf8.EncodeRune] for code points below 0x10000 outside the
    surrogates (one, two or three bytes). *)
Definition utf8 (r : N) : string :=
  if (r <? 128)%N then String (byte_of r) EmptyString
  else if (r <? 2048)%N then
    String (byte_of (192 + r / 64))
      (String (byte_of (128 + r mod 64)) EmptyString)
  else
    String (byte_of (224 + r / 4096))
      (String (byte_of (128 + (r / 64) mod 64))
        (String (byte_of (128 + r mod 64)) EmptyString)).

(** [strings.ToUpper(string(first))] for a byte [first]: the conversion
    [string(first)] is the UTF-8 encoding of the code point [first], and
    [ToUpper] maps its single rune and encodes the result. *)
Definition ToUpper_first (first : ascii) : string :=
  utf8 (unicode_ToUpper (N_of_ascii first)).

End GoString.
Import GoString.

(** ** Panics *)

(** What a [panic] carries: the message given to [panic(...)], or the
    runtime error of indexing a string out of range. *)
Inductive panic_value :=
| PanicString (msg : string)
| IndexOutOfRange (index length : nat).

(** The outcome of a call that may panic. *)
Inductive outcome (A : Type) :=
| Return (a : A)
| Panicked (p : panic_value).
Arguments Return {A} a.
Arguments Panicked {A} p.

#[global] Instance outcome_ret : MRet outcome := @Return.
#[global] Instance outcome_bind : MBind outcome := λ A B f m,
  match m with
  | Return a => f a
  | Panicked p => Panicked p
  end.

(** ** Identifier derivation *)

(** [func camel(str string) string]: [str[0]] panics on the empty string. *)
Definition camel (str : string) : outcome string :=
  match str with
  | EmptyString => Panicked (IndexOutOfRange 0 0)
  | String first rest => Return (ToUpper_first first +:+ rest)
  end.

(** ** The description: the three structs of [main.go]

    A description is read from JSON into pointers; the model takes the
    structs themselves (no null entry in [States] or [Transitions]). *)

Record Transition := {
  (** Name of the event. *)
  Event : string;
  (** State to transition to should the specified event occur. *)
  To : string;
  (** Function to execute before the state is switched to the target
      state. *)
  Action : string;
  (** Function to execute to check whether a transition should occur. *)
  Condition : string
}.

Record State := {
  (** Name of the state. *)
  Name : string;
  (** Function to execute whenever a transition to this state happens. *)
  On : string;
  (** State transitions. *)
  Transitions : list Transition
}.

Record Description := {
  States : list State;
  (** [Name] in the source: the name of the state machine, also the name
      of the generated type. *)
  MachineName : string;
  (** Package name. *)
  Package : string;
  (** The initial state. *)
  Init : string;
  (** Iface. *)
  Iface : string
}.

#[global] Instance Transition_eq_dec : EqDecision Transition.
Proof. solve_decision. Defined.
#[global] Instance State_eq_dec : EqDecision State.
Proof. solve_decision. Defined.

(** ** Ranging over a Go map

    [for k, v := range m] visits every entry of [m] once, in an order the
    runtime picks anew for each loop.  A [map_order] is one such choice:
    it rearranges the entries, and nothing else.  Every order of the
    entries is the choice of some [map_order] ([any_order_possible]). *)

Record map_order (V : Type) := {
  visit : list (string * V) → list (string * V);
  visit_perm : ∀ l, visit l ≡ₚ l
}.
Arguments visit {V} _ _.
Arguments visit_perm {V} _ _.

Definition range {V : Type} (o : map_order V) (m : gmap string V) : list (string * V) :=
  visit o (map_to_list m).

(** The four loops of [compile] that range over a map, in source order:
    the cases of [SetState], the state constants, the event constants, the
    cases of [Event]. *)
Record traversal := {
  order_SetState : map_order State;
  order_state_consts : map_order State;
  order_event_consts : map_order bool;
  order_Event : map_order State
}.

(** A Go map read: the zero value when the key is absent. *)
Definition get_bool (m : gmap string bool) (k : string) : bool :=
  default false (m !! k).

(** ** The buffer and the code that writes to it *)

(** [bytes.Buffer], as the pieces written to it so far; [Bytes] is its
    content. *)
Definition Buffer : Type := list string.

(** A piece of [compile]: it reads and extends the buffer, and may panic. *)
Definition Gen (A : Type) : Type := Buffer → outcome (A * Buffer).

#[global] Instance Gen_ret : MRet Gen := λ A a buf, Return (a, buf).
#[global] Instance Gen_bind : MBind Gen := λ A B f m buf,
  match m buf with
  | Return (a, buf') => f a buf'
  | Panicked p => Panicked p
  end.

Definition panic {A : Type} (msg : string) : Gen A :=
  λ _, Panicked (PanicString msg).

Definition lift {A : Type} (r : outcome A) : Gen A :=
  λ buf, match r with
         | Return a => Return (a, buf)
         | Panicked p => Panicked p
         end.

(** [for _, x := range l { body }] over a slice. *)
Fixpoint for_each {A : Type} (l : list A) (body : A → Gen unit) : Gen unit :=
  match l with
  | [] => mret tt
  | x :: l' => body x ;; for_each l' body
  end.

(** The same loop when the body updates local variables [acc] and writes
    nothing. *)
Fixpoint fold_each {A S : Type} (l : list A) (body : S → A → outcome S) (acc : S) : outcome S :=
  match l with
  | [] => Return acc
  | x :: l' => acc' ← body acc x; fold_each l' body acc'
  end.

(** ** The generated routines

    What [compile] writes for [SetState] and [Event] is built from three
    Go statements and two nested [switch]es.  They are kept as syntax
    here, each constructor standing for the lines it prints to (see
    [printed_stmt] and the functions after it). *)

(** A callback as the generated code calls it: the function [func], or
    the method [func] of the collaborator when [receiver] is
    [sm.iface.]. *)
Record callee := { receiver : string; func : string }.

Inductive stmt :=
(** [if err := f(event, sm.state); err != nil { return err }] *)
| CallOrReturn (f : callee)
(** [sm.state = target] *)
| SetTo (target : string).

(** [case on_event:] of the inner switch.  With a guard [g] the body is
    wrapped: [if ok, err := g(event, sm.state); true { if err != nil
    { return err }; if ok { body } }]. *)
Record event_case := {
  on_event : string;
  guard : option callee;
  body : list stmt
}.

(** [case in_state: switch event { event_cases; default: return
    errors.New(...) }] of the outer switch of [Event]. *)
Record state_case := {
  in_state : string;
  event_cases : list event_case
}.

(** [case entered: if err := entry(event, sm.state); err != nil { return
    err }] of the switch of [SetState]. *)
Record on_case := {
  entered : string;
  entry : callee
}.

(** The generated file, as far as it varies with the description: the
    cases of [SetState], the constants (identifier and value), the cases
    of [Event]. *)
Record machine_code := {
  SetState_cases : list on_case;
  state_consts : list (string * string);
  event_consts : list (string * string);
  Event_cases : list state_case
}.

(** ** The compiler *)

Section Compiler.

(** [fmt.Sprintf] for the verbs of [main.go], on string operands: [%s]
    writes the operand, [%q] writes it quoted; a verb with no operand
    left writes [%!s(MISSING)] (or [q]).  No call of [main.go] has more
    operands than verbs.  The quoting of [%q] ([strconv.Quote]) is
    library code: it is the parameter [quote]. *)
Variable quote : string → string.

Definition missing (verb : ascii) : string :=
  "%!" +:+ String verb "(MISSING)".

Fixpoint Sprintf (format : string) (a : list string) : string :=
  match format with
  | EmptyString => EmptyString
  | String "%" (String "s" r) =>
      match a with
      | x :: a' => x +:+ Sprintf r a'
      | [] => missing "s" +:+ Sprintf r []
      end
  | String "%" (String "q" r) =>
      match a with
      | x :: a' => quote x +:+ Sprintf r a'
      | [] => missing "q" +:+ Sprintf r []
      end
  | String c r => String c (Sprintf r a)
  end.

(** [func writef(buf, fmtstr, args...)].  The format is written as in the
    source and read by [lit]. *)
Definition writef (fmtstr : string) (args : list string) : Gen unit :=
  λ buf, Return (tt, buf ++ [Sprintf (lit fmtstr) args]).

(** The operand of the [errors.New] line: a Go expression, written into
    the output as it is. *)
Definition invalid_event_expr : string :=
  "fmt.Sprintf(" +:+ dq +:+
  "Event `%s` is not valid during state `%s`, event, sm.state" +:+ dq +:+ ")".

(** Lines 322-332: one transition of the state being indexed. *)
Definition index_transition (acc : gmap string bool * gmap string bool)
    (transition : Transition) : outcome (gmap string bool * gmap string bool) :=
  let '(transitionMap, eventsMap) := acc in
  let it := get_bool transitionMap (Event transition) in
  if it then
    Panicked (PanicString (Sprintf
      "Can't have two transitions for the same event. Duplicate event: %s."
      [Event transition]))
  else
    Return (<[Event transition := true]> transitionMap,
            <[Event transition := true]> eventsMap).

(** Lines 311-333: one state of the description. *)
Definition index_state (acc : gmap string State * gmap string bool)
    (state : State) : outcome (gmap string State * gmap string bool) :=
  let '(statesMap, eventsMap) := acc in
  let it := statesMap !! Name state in
  match it with
  | Some _ => Panicked (PanicString (Sprintf "Duplicate state: %s" [Name state]))
  | None =>
      let statesMap := <[Name state := state]> statesMap in
      let transitionMap : gmap string bool := ∅ in
      '(_, eventsMap) ← fold_each (Transitions state) index_transition
                           (transitionMap, eventsMap);
      Return (statesMap, eventsMap)
  end.

(** Lines 404-461: the case of one transition in the [Event] routine. *)
Definition compile_transition (desc : Description)
    (statesMap : gmap string State) (state : State)
    (transition : Transition) : Gen unit :=
  writef "\t\tcase %q:\n" [Event transition] ;;
  (if decide (Condition transition ≠ "") then
     let ifaceStr := if decide (Iface desc ≠ "") then "sm.iface." else "" in
     writef "\t\t\tif ok, err := %s%s(event, sm.state); true {\n"
       [ifaceStr; Condition transition] ;;
     writef "\t\t\tif err != nil { return err }\n" [] ;;
     writef "\t\t\tif ok{\n" []
   else mret tt) ;;
  (if decide (Action transition ≠ "") then
     let ifaceStr := if decide (Iface desc ≠ "") then "sm.iface." else "" in
     writef "\t\t\tif err := %s%s(event, sm.state); err != nil {\n"
       [ifaceStr; Action transition] ;;
     writef "\t\t\t\treturn err\n" [] ;;
     writef "\t\t\t}\n" []
   else mret tt) ;;
  (if decide (To transition ≠ "") then
     let targetState := statesMap !! To transition in
     match targetState with
     | None =>
         panic (Sprintf
           "Target state in transition from state `%s` to `%s` on event `%s` does not exist."
           [Name state; To transition; Event transition])
     | Some targetState =>
         writef "\t\t\tsm.state = %q\n" [To transition] ;;
         if decide (On targetState ≠ "") then
           let ifaceStr := if decide (Iface desc ≠ "") then "sm.iface." else "" in
           writef "\t\t\tif err := %s%s(event, sm.state); err != nil {\n"
             [ifaceStr; On targetState] ;;
           writef "\t\t\t\treturn err\n" [] ;;
           writef "\t\t\t}\n" []
         else mret tt
     end
   else mret tt) ;;
  (if decide (Condition transition ≠ "") then
     writef "\t\t\t}}\n" []
   else mret tt).

(** Lines 399-467: the case of one state in the [Event] routine. *)
Definition compile_state (desc : Description)
    (statesMap : gmap string State) (state : State) : Gen unit :=
  writef "\tcase %q:\n" [Name state] ;;
  writef "\t\tswitch event {\n" [] ;;
  for_each (Transitions state) (compile_transition desc statesMap state) ;;
  writef "\t\tdefault:\n" [] ;;
  writef "\t\t\treturn errors.New(%s)\n" [invalid_event_expr] ;;
  writef "\t\t}\n" [].

(** Lines 358-372: the case of one state in the [SetState] routine. *)
Definition compile_on (desc : Description) (state : State) : Gen unit :=
  if decide (On state ≠ "") then
    writef "\t\tcase %q:\n" [Name state] ;;
    let ifaceStr := if decide (Iface desc ≠ "") then "sm.iface." else "" in
    writef "\t\t\tif err := %s%s(event, sm.state); err != nil {\n"
      [ifaceStr; On state] ;;
    writef "\t\t\t\treturn err\n" [] ;;
    writef "\t\t\t}\n" []
  else mret tt.

(** [func compile(desc *Description, pkg string, buf *bytes.Buffer)].
    The traversal [o] stands for the orders in which this run visits the
    maps. *)
Definition compile (o : traversal) (desc : Description) (pkg : string) : Gen unit :=
  writef "// Code generated by genstatem; DO NOT EDIT.\n\n" [] ;;
  writef "package %s\n\n" [pkg] ;;
  writef ("import " +:+ dq +:+ "fmt" +:+ dq +:+ "\n") [] ;;
  writef ("import " +:+ dq +:+ "errors" +:+ dq +:+ "\n") [] ;;
  writef ("import " +:+ dq +:+ "sync" +:+ dq +:+ "\n\n") [] ;;
  writef "// An Event is an 'Event' that can occur.\n" [] ;;
  writef "type Event string\n\n" [] ;;
  writef "// A State is a 'State' a state machine can be in.\n" [] ;;
  writef "type State string\n\n" [] ;;
  writef "// %s is a state machine.\n" [MachineName desc] ;;
  writef "type %s struct {\n" [MachineName desc] ;;
  writef "\tstate State\n" [] ;;
  writef "\tmu *sync.RWMutex\n" [] ;;

  (if decide (Iface desc ≠ "") then
     writef "\tiface %s\n" [Iface desc]
   else mret tt) ;;

  writef "}\n\n" [] ;;

  writef "// State returns the state the state machine is in.\n" [] ;;
  writef "func (sm *%s) State() State {\n" [MachineName desc] ;;
  writef "\tsm.mu.RLock()\n" [] ;;
  writef "\tdefer sm.mu.RUnlock()\n\n" [] ;;
  writef "\treturn sm.state\n}\n\n" [] ;;

  '(statesMap, eventsMap) ← lift (fold_each (States desc) index_state (∅, ∅)) ;

  (if decide (statesMap !! Init desc = None) then
     panic (Sprintf "Init state `%s` does not exist." [Init desc])
   else mret tt) ;;

  (if decide (Iface desc ≠ "") then
     writef "// SetIface sets the internal state of the state machine.\n" [] ;;
     writef "func (sm *%s) SetIface(iface %s) {\n" [MachineName desc; Iface desc] ;;
     writef "\tsm.mu.Lock()\n" [] ;;
     writef "\tdefer sm.mu.Unlock()\n" [] ;;
     writef "\tsm.iface = iface\n" [] ;;
     writef "}\n\n" []
   else mret tt) ;;

  writef "// SetState sets the state of the state machine. If invokeOn\n" [] ;;
  writef "// is true then it'll also invoke the 'on' function for that state.\n" [] ;;
  writef "// The parameter event is passed as the event parameter to the 'on' function.\n" [] ;;
  writef "func (sm *%s) SetState(state State, event Event, invokeOn bool) error {\n"
    [MachineName desc] ;;
  writef "\tsm.mu.Lock()\n" [] ;;
  writef "\tdefer sm.mu.Unlock()\n" [] ;;
  writef "\tsm.state = state\n" [] ;;
  writef "\tif invokeOn {\n" [] ;;
  writef "\t\tswitch state {\n" [] ;;

  for_each (range (order_SetState o) statesMap)
    (λ '(_, state), compile_on desc state) ;;

  writef "\t\t}\n" [] ;;

  writef "\t}\n\n" [] ;;
  writef "\treturn nil\n" [] ;;
  writef "}\n\n" [] ;;

  for_each (range (order_state_consts o) statesMap)
    (λ '(_, state),
       id ← lift (camel (Name state)) ;
       writef "const State%s = %q\n" [id; Name state]) ;;

  for_each (range (order_event_consts o) eventsMap)
    (λ '(k, _),
       id ← lift (camel k) ;
       writef "const Event%s = %q\n" [id; k]) ;;
  writef ("const NoEvent = " +:+ dq +:+ dq +:+ "\n") [] ;;

  writef "\n\n" [] ;;

  writef "// Event informs the state machine about an occured 'Event'. The state\n" [] ;;
  writef "// machine will then transition into the correct target state and invoke the\n" [] ;;
  writef "// registered callbacks.\n" [] ;;
  writef "func (sm *%s) Event(event Event) error {\n" [MachineName desc] ;;
  writef "\tsm.mu.Lock()\n" [] ;;
  writef "\tdefer sm.mu.Unlock()\n\n" [] ;;
  writef "\tswitch sm.state {\n" [] ;;

  for_each (range (order_Event o) statesMap)
    (λ '(_, state), compile_state desc statesMap state) ;;

  writef "\t}\n\n" [] ;;
  writef "\treturn nil\n" [] ;;
  writef "}\n\n" [] ;;

  if decide (Iface desc = "") then
    writef "// New%s() creates a new state machine.\n" [MachineName desc] ;;
    writef "func New%s() *%s{\n" [MachineName desc; MachineName desc] ;;
    writef "\treturn &%s{state:%q, mu: &sync.RWMutex{}}\n" [MachineName desc; Init desc] ;;
    writef "}\n\n" []
  else
    writef "// New%s creates a new state machine.\n" [MachineName desc] ;;
    writef "func New%s(iface %s) *%s{\n" [MachineName desc; Iface desc; MachineName desc] ;;
    writef "\treturn &%s{state:%q, mu: &sync.RWMutex{}, iface: iface}\n"
      [MachineName desc; Init desc] ;;
    writef "}\n\n" [].

(** *** The generated routines, as syntax

    The functions below follow [compile] loop by loop and build the
    syntax of what it writes instead of the text; [compile_writes] proves
    that the text is the printing of this syntax. *)

Definition callee_of (desc : Description) (name : string) : callee :=
  {| receiver := if decide (Iface desc ≠ "") then "sm.iface." else "";
     func := name |}.

Definition transition_case (desc : Description)
    (statesMap : gmap string State) (state : State)
    (transition : Transition) : outcome event_case :=
  let act :=
    if decide (Action transition ≠ "")
    then [CallOrReturn (callee_of desc (Action transition))] else [] in
  move ←
    (if decide (To transition ≠ "") then
       match statesMap !! To transition with
       | None =>
           Panicked (PanicString (Sprintf
             "Target state in transition from state `%s` to `%s` on event `%s` does not exist."
             [Name state; To transition; Event transition]))
       | Some targetState =>
           Return (SetTo (To transition) ::
                   if decide (On targetState ≠ "")
                   then [CallOrReturn (callee_of desc (On targetState))] else [])
       end
     else Return []) ;
  Return {| on_event := Event transition;
            guard := if decide (Condition transition ≠ "")
                     then Some (callee_of desc (Condition transition)) else None;
            body := act ++ move |}.

Definition state_case_of (desc : Description)
    (statesMap : gmap string State) (state : State) : outcome state_case :=
  cases ← mapM (transition_case desc statesMap state) (Transitions state) ;
  Return {| in_state := Name state; event_cases := cases |}.

Definition on_case_of (desc : Description) (state : State) : list on_case :=
  if decide (On state ≠ "")
  then [ {| entered := Name state; entry := callee_of desc (On state) |} ]
  else [].

Definition const_of (name : string) : outcome (string * string) :=
  id ← camel name ; Return (id, name).

Definition generated (o : traversal) (desc : Description) : outcome machine_code :=
  '(statesMap, eventsMap) ← fold_each (States desc) index_state (∅, ∅) ;
  (if decide (statesMap !! Init desc = None) then
     Panicked (PanicString (Sprintf "Init state `%s` does not exist." [Init desc]))
   else Return tt) ;;
  sc ← mapM (λ x, const_of (Name x.2))
          (range (order_state_consts o) statesMap) ;
  ec ← mapM (λ x, const_of x.1)
          (range (order_event_consts o) eventsMap) ;
  cases ← mapM (λ x, state_case_of desc statesMap x.2)
          (range (order_Event o) statesMap) ;
  Return {| SetState_cases :=
              mjoin ((λ x, on_case_of desc x.2) <$>
                     range (order_SetState o) statesMap);
            state_consts := sc;
            event_consts := ec;
            Event_cases := cases |}.

(** *** Printing the syntax *)

Definition piece (fmtstr : string) (args : list string) : string :=
  Sprintf (lit fmtstr) args.

Definition printed_call (f : callee) : list string :=
  [ piece "\t\t\tif err := %s%s(event, sm.state); err != nil {\n" [receiver f; func f];
    piece "\t\t\t\treturn err\n" [];
    piece "\t\t\t}\n" [] ].

Definition printed_stmt (s : stmt) : list string :=
  match s with
  | CallOrReturn f => printed_call f
  | SetTo target => [ piece "\t\t\tsm.state = %q\n" [target] ]
  end.

Definition printed_event_case (c : event_case) : list string :=
  [ piece "\t\tcase %q:\n" [on_event c] ] ++
  match guard c with
  | Some g =>
      [ piece "\t\t\tif ok, err := %s%s(event, sm.state); true {\n" [receiver g; func g];
        piece "\t\t\tif err != nil { return err }\n" [];
        piece "\t\t\tif ok{\n" [] ] ++
      mjoin (printed_stmt <$> body c) ++
      [ piece "\t\t\t}}\n" [] ]
  | None => mjoin (printed_stmt <$> body c)
  end.

Definition printed_state_case (c : state_case) : list string :=
  [ piece "\tcase %q:\n" [in_state c];
    piece "\t\tswitch event {\n" [] ] ++
  mjoin (printed_event_case <$> event_cases c) ++
  [ piece "\t\tdefault:\n" [];
    piece "\t\t\treturn errors.New(%s)\n" [invalid_event_expr];
    piece "\t\t}\n" [] ].

Definition printed_on_case (c : on_case) : list string :=
  piece "\t\tcase %q:\n" [entered c] :: printed_call (entry c).

(** Lines 282-306 and 339-346: the package clause, the types, [State()]
    and [SetIface]. *)
Definition printed_types (desc : Description) (pkg : string) : list string :=
  [ piece "// Code generated by genstatem; DO NOT EDIT.\n\n" [];
    piece "package %s\n\n" [pkg];
    piece ("import " +:+ dq +:+ "fmt" +:+ dq +:+ "\n") [];
    piece ("import " +:+ dq +:+ "errors" +:+ dq +:+ "\n") [];
    piece ("import " +:+ dq +:+ "sync" +:+ dq +:+ "\n\n") [];
    piece "// An Event is an 'Event' that can occur.\n" [];
    piece "type Event string\n\n" [];
    piece "// A State is a 'State' a state machine can be in.\n" [];
    piece "type State string\n\n" [];
    piece "// %s is a state machine.\n" [MachineName desc];
    piece "type %s struct {\n" [MachineName desc];
    piece "\tstate State\n" [];
    piece "\tmu *sync.RWMutex\n" [] ] ++
  (if decide (Iface desc ≠ "") then [ piece "\tiface %s\n" [Iface desc] ] else []) ++
  [ piece "}\n\n" [];
    piece "// State returns the state the state machine is in.\n" [];
    piece "func (sm *%s) State() State {\n" [MachineName desc];
    piece "\tsm.mu.RLock()\n" [];
    piece "\tdefer sm.mu.RUnlock()\n\n" [];
    piece "\treturn sm.state\n}\n\n" [] ] ++
  (if decide (Iface desc ≠ "") then
     [ piece "// SetIface sets the internal state of the state machine.\n" [];
       piece "func (sm *%s) SetIface(iface %s) {\n" [MachineName desc; Iface desc];
       piece "\tsm.mu.Lock()\n" [];
       piece "\tdefer sm.mu.Unlock()\n" [];
       piece "\tsm.iface = iface\n" [];
       piece "}\n\n" [] ]
   else []).

(** Lines 348-378: [SetState] around its cases. *)
Definition printed_SetState (desc : Description) (cases : list on_case) : list string :=
  [ piece "// SetState sets the state of the state machine. If invokeOn\n" [];
    piece "// is true then it'll also invoke the 'on' function for that state.\n" [];
    piece "// The parameter event is passed as the event parameter to the 'on' function.\n" [];
    piece "func (sm *%s) SetState(state State, event Event, invokeOn bool) error {\n"
      [MachineName desc];
    piece "\tsm.mu.Lock()\n" [];
    piece "\tdefer sm.mu.Unlock()\n" [];
    piece "\tsm.state = state\n" [];
    piece "\tif invokeOn {\n" [];
    piece "\t\tswitch state {\n" [] ] ++
  mjoin (printed_on_case <$> cases) ++
  [ piece "\t\t}\n" [];
    piece "\t}\n\n" [];
    piece "\treturn nil\n" [];
    piece "}\n\n" [] ].

(** Lines 380-389: the constants. *)
Definition printed_consts (sc ec : list (string * string)) : list string :=
  ((λ c, piece "const State%s = %q\n" [c.1; c.2]) <$> sc) ++
  ((λ c, piece "const Event%s = %q\n" [c.1; c.2]) <$> ec) ++
  [ piece ("const NoEvent = " +:+ dq +:+ dq +:+ "\n") [];
    piece "\n\n" [] ].

(** Lines 391-471: [Event] around its cases. *)
Definition printed_Event (desc : Description) (cases : list state_case) : list string :=
  [ piece "// Event informs the state machine about an occured 'Event'. The state\n" [];
    piece "// machine will then transition into the correct target state and invoke the\n" [];
    piece "// registered callbacks.\n" [];
    piece "func (sm *%s) Event(event Event) error {\n" [MachineName desc];
    piece "\tsm.mu.Lock()\n" [];
    piece "\tdefer sm.mu.Unlock()\n\n" [];
    piece "\tswitch sm.state {\n" [] ] ++
  mjoin (printed_state_case <$> cases) ++
  [ piece "\t}\n\n" [];
    piece "\treturn nil\n" [];
    piece "}\n\n" [] ].

(** Lines 473-483: the constructor. *)
Definition printed_New (desc : Description) : list string :=
  if decide (Iface desc = "") then
    [ piece "// New%s() creates a new state machine.\n" [MachineName desc];
      piece "func New%s() *%s{\n" [MachineName desc; MachineName desc];
      piece "\treturn &%s{state:%q, mu: &sync.RWMutex{}}\n" [MachineName desc; Init desc];
      piece "}\n\n" [] ]
  else
    [ piece "// New%s creates a new state machine.\n" [MachineName desc];
      piece "func New%s(iface %s) *%s{\n" [MachineName desc; Iface desc; MachineName desc];
      piece "\treturn &%s{state:%q, mu: &sync.RWMutex{}, iface: iface}\n"
        [MachineName desc; Init desc];
      piece "}\n\n" [] ].

Definition printed (desc : Description) (pkg : string) (code : machine_code) : list string :=
  printed_types desc pkg ++
  printed_SetState desc (SetState_cases code) ++
  printed_consts (state_consts code) (event_consts code) ++
  printed_Event desc (Event_cases code) ++
  printed_New desc.

(** What a run of [compile] leaves in an empty buffer, by way of the
    syntax. *)
Definition emitted (o : traversal) (desc : Description) (pkg : string) : outcome (list string) :=
  code ← generated o desc ; Return (printed desc pkg code).

End Compiler.

(** ** The first program of [main.go] (lines 1-184)

    [main.go] holds two programs.  The first has the same [writef] and
    [camel], structs without [Iface] and [Condition], and a [compile]
    that knows neither conditions, nor [SetState], nor a collaborator.
    Its [compile] is taken on the records of the second program, of which
    it reads no [Iface], [Condition] or [Package]; it indexes the states
    with the same loop ([index_state]) and ranges over the maps three
    times (the [order_SetState] of a traversal is not used). *)

Module First.

Section Compiler.

Variable quote : string → string.

(** Lines 152-169: the case of one transition.  The target is looked up
    before anything is written, whatever [transition.To] is, and the
    action is called whatever [transition.Action] is. *)
Definition compile_transition (statesMap : gmap string State) (state : State)
    (transition : Transition) : Gen unit :=
  let targetState := statesMap !! To transition in
  match targetState with
  | None =>
      panic (Sprintf quote
        "Target state in transition from state `%s` to `%s` on event `%s` does not exist."
        [Name state; To transition; Event transition])
  | Some targetState =>
      writef quote "\t\tcase %q:\n" [Event transition] ;;
      writef quote "\t\t\t%s(event, sm.state)\n" [Action transition] ;;
      writef quote "\t\t\tsm.state = %q\n" [To transition] ;;
      (* Does the target state have an on? *)
      if decide (On targetState ≠ "") then
        writef quote "\t\t\t%s(event, sm.state)\n" [On targetState]
      else mret tt
  end.

(** Lines 147-175: the case of one state. *)
Definition compile_state (statesMap : gmap string State) (state : State) : Gen unit :=
  writef quote "\tcase %q:\n" [Name state] ;;
  writef quote "\t\tswitch event {\n" [] ;;
  for_each (Transitions state) (compile_transition statesMap state) ;;
  writef quote "\t\tdefault:\n" [] ;;
  writef quote "\t\t\treturn errors.New(%s)\n" [invalid_event_expr] ;;
  writef quote "\t\t}\n" [].

(** Lines 88-184: [func compile(desc *Description, pkg string, buf
    *bytes.Buffer)] of the first program. *)
Definition compile (o : traversal) (desc : Description) (pkg : string) : Gen unit :=
  writef quote "// Code generated by genstatem; DO NOT EDIT.\n\n" [] ;;
  writef quote "package %s\n\n" [pkg] ;;
  writef quote ("import " +:+ dq +:+ "fmt" +:+ dq +:+ "\n") [] ;;
  writef quote ("import " +:+ dq +:+ "errors" +:+ dq +:+ "\n") [] ;;
  writef quote ("import " +:+ dq +:+ "sync" +:+ dq +:+ "\n\n") [] ;;
  writef quote "type Event string\n" [] ;;
  writef quote "type State string\n" [] ;;
  writef quote "type %s struct {\n" [MachineName desc] ;;
  writef quote "\tstate State\n" [] ;;
  writef quote "\tmu *sync.RWMutex\n" [] ;;
  writef quote "}\n\n" [] ;;
  writef quote "func (sm *%s) State() State {\n" [MachineName desc] ;;
  writef quote "\tsm.mu.RLock()\n" [] ;;
  writef quote "\tdefer sm.mu.RUnlock()\n\n" [] ;;
  writef quote "\treturn sm.state\n}\n\n" [] ;;

  '(statesMap, eventsMap) ← lift (fold_each (States desc) (index_state quote) (∅, ∅)) ;

  for_each (range (order_state_consts o) statesMap)
    (λ '(_, state),
       id ← lift (camel (Name state)) ;
       writef quote "const State%s = %q\n" [id; Name state]) ;;

  for_each (range (order_event_consts o) eventsMap)
    (λ '(k, _),
       id ← lift (camel k) ;
       writef quote "const Event%s = %q\n" [id; k]) ;;

  writef quote "\n\n" [] ;;

  writef quote "func (sm *%s) Event(event Event) error {\n" [MachineName desc] ;;
  writef quote "\tsm.mu.Lock()\n" [] ;;
  writef quote "\tdefer sm.mu.Unlock()\n\n" [] ;;
  writef quote "\tswitch sm.state {\n" [] ;;

  for_each (range (order_Event o) statesMap)
    (λ '(_, state), compile_state statesMap state) ;;

  writef quote "\t}\n\n" [] ;;
  writef quote "\treturn nil\n" [] ;;
  writef quote "}\n\n" [] ;;

  writef quote "func New%s() *%s{\n" [MachineName desc; MachineName desc] ;;
  writef quote "\treturn &%s{state:%q, mu: &sync.RWMutex{}}\n"
    [MachineName desc; Init desc] ;;
  writef quote "}\n\n" [].

(** *** The same text, piece by piece

    What the loops of [compile] write, as functions of what they range
    over; [First_compile_writes] proves that [compile] writes [emitted]. *)

Definition transition_pieces (statesMap : gmap string State) (state : State)
    (transition : Transition) : outcome (list string) :=
  match statesMap !! To transition with
  | None =>
      Panicked (PanicString (Sprintf quote
        "Target state in transition from state `%s` to `%s` on event `%s` does not exist."
        [Name state; To transition; Event transition]))
  | Some targetState =>
      Return ([ piece quote "\t\tcase %q:\n" [Event transition];
                piece quote "\t\t\t%s(event, sm.state)\n" [Action transition];
                piece quote "\t\t\tsm.state = %q\n" [To transition] ] ++
              if decide (On targetState ≠ "")
              then [ piece quote "\t\t\t%s(event, sm.state)\n" [On targetState] ]
              else [])
  end.

Definition state_pieces (statesMap : gmap string State) (state : State) :
    outcome (list string) :=
  cases ← mapM (transition_pieces statesMap state) (Transitions state) ;
  Return ([ piece quote "\tcase %q:\n" [Name state];
            piece quote "\t\tswitch event {\n" [] ] ++
          mjoin cases ++
          [ piece quote "\t\tdefault:\n" [];
            piece quote "\t\t\treturn errors.New(%s)\n" [invalid_event_expr];
            piece quote "\t\t}\n" [] ]).

Definition emitted (o : traversal) (desc : Description) (pkg : string) :
    outcome (list string) :=
  '(statesMap, eventsMap) ← fold_each (States desc) (index_state quote) (∅, ∅) ;
  sc ← mapM (λ x, const_of (Name x.2)) (range (order_state_consts o) statesMap) ;
  ec ← mapM (λ x, const_of x.1) (range (order_event_consts o) eventsMap) ;
  cases ← mapM (λ x, state_pieces statesMap x.2) (range (order_Event o) statesMap) ;
  Return
    ([ piece quote "// Code generated by genstatem; DO NOT EDIT.\n\n" [];
       piece quote "package %s\n\n" [pkg];
       piece quote ("import " +:+ dq +:+ "fmt" +:+ dq +:+ "\n") [];
       piece quote ("import " +:+ dq +:+ "errors" +:+ dq +:+ "\n") [];
       piece quote ("import " +:+ dq +:+ "sync" +:+ dq +:+ "\n\n") [];
       piece quote "type Event string\n" [];
       piece quote "type State string\n" [];
       piece quote "type %s struct {\n" [MachineName desc];
       piece quote "\tstate State\n" [];
       piece quote "\tmu *sync.RWMutex\n" [];
       piece quote "}\n\n" [];
       piece quote "func (sm *%s) State() State {\n" [MachineName desc];
       piece quote "\tsm.mu.RLock()\n" [];
       piece quote "\tdefer sm.mu.RUnlock()\n\n" [];
       piece quote "\treturn sm.state\n}\n\n" [] ] ++
     ((λ c, piece quote "const State%s = %q\n" [c.1; c.2]) <$> sc) ++
     ((λ c, piece quote "const Event%s = %q\n" [c.1; c.2]) <$> ec) ++
     [ piece quote "\n\n" [];
       piece quote "func (sm *%s) Event(event Event) error {\n" [MachineName desc];
       piece quote "\tsm.mu.Lock()\n" [];
       piece quote "\tdefer sm.mu.Unlock()\n\n" [];
       piece quote "\tswitch sm.state {\n" [] ] ++
     mjoin cases ++
     [ piece quote "\t}\n\n" [];
       piece quote "\treturn nil\n" [];
       piece quote "}\n\n" [];
       piece quote "func New%s() *%s{\n" [MachineName desc; MachineName desc];
       piece quote "\treturn &%s{state:%q, mu: &sync.RWMutex{}}\n"
         [MachineName desc; Init desc];
       piece quote "}\n\n" [] ]).

End Compiler.

End First.

(** What the first [compile] checks on its way: no two states of a name,
    no two transitions of a state on the same event, no empty state or
    event name, and a state for the target of every transition. *)
Definition First_well_formed (desc : Description) : Prop :=
  NoDup (Name <$> States desc) ∧
  (∀ st, st ∈ States desc → NoDup (Event <$> Transitions st)) ∧
  (∀ st, st ∈ States desc → Name st ≠ "") ∧
  (∀ st tr, st ∈ States desc → tr ∈ Transitions st → Event tr ≠ "") ∧
  (∀ st tr, st ∈ States desc → tr ∈ Transitions st →
            ∃ target, target ∈ States desc ∧ Name target = To tr).

(** ** What the generated routines do

    The routines run under the machine's lock, one call at a time.  The
    callbacks are the caller's Go functions: each is given the event and
    [sm.state], may read and change anything of the caller's ([W]), and
    has no access to the machine's own state. *)

(** A Go [error] that is not nil, by its message. *)
Definition error : Type := string.

(** [errors.New(fmt.Sprintf(...))] as [invalid_event_expr] spells it: the
    closing quote stands after [sm.state], so the format is the only
    operand. *)
Definition invalid_event_error : error :=
  Sprintf (λ s, s) "Event `%s` is not valid during state `%s`, event, sm.state" [].

Record call := { called : callee; with_event : string; with_state : string }.

Section Machine.

Variable W : Type.

Record callbacks := {
  (** [func(event Event, state State) error]: actions and entry actions. *)
  action : callee → string → string → W → option error * W;
  (** [func(event Event, state State) (bool, error)]: conditions. *)
  condition : callee → string → string → W → (bool * option error) * W
}.

(** The machine ([sm.state]), the caller's world, and the calls made so
    far, oldest first. *)
Record machine := {
  sm_state : string;
  world : W;
  calls : list call
}.

Variable cb : callbacks.

(** The machine after a call of [f] that left the world [w]. *)
Definition after_call (sm : machine) (f : callee) (event : string) (w : W) : machine :=
  {| sm_state := sm_state sm; world := w;
     calls := calls sm ++ [ {| called := f; with_event := event;
                               with_state := sm_state sm |} ] |}.

(** What a statement leaves behind: [Some e] when it executed
    [return e], [None] when control goes on to the next statement. *)
Definition exec_stmt (event : string) (s : stmt) (sm : machine) : option error * machine :=
  match s with
  | CallOrReturn f =>
      let '(err, w) := action cb f event (sm_state sm) (world sm) in
      (err, after_call sm f event w)
  | SetTo target =>
      (None, {| sm_state := target; world := world sm; calls := calls sm |})
  end.

Fixpoint exec_body (event : string) (l : list stmt) (sm : machine) : option error * machine :=
  match l with
  | [] => (None, sm)
  | s :: l' =>
      match exec_stmt event s sm with
      | (Some e, sm') => (Some e, sm')
      | (None, sm') => exec_body event l' sm'
      end
  end.

Definition exec_event_case (event : string) (c : event_case) (sm : machine) : option error * machine :=
  match guard c with
  | None => exec_body event (body c) sm
  | Some g =>
      let '((ok, err), w) := condition cb g event (sm_state sm) (world sm) in
      let sm' := after_call sm g event w in
      match err with
      | Some e => (Some e, sm')
      | None => if ok then exec_body event (body c) sm' else (None, sm')
      end
  end.

(** A Go [switch] on a string: the first case whose label is the value. *)
Fixpoint select {C : Type} (label : C → string) (v : string) (cases : list C) : option C :=
  match cases with
  | [] => None
  | c :: rest => if decide (label c = v) then Some c else select label v rest
  end.

(** [func (sm *M) Event(event Event) error]; [None] is [nil]. *)
Definition run_Event (cases : list state_case) (event : string) (sm : machine) : option error * machine :=
  match select in_state (sm_state sm) cases with
  | None => (None, sm)
  | Some sc =>
      match select on_event event (event_cases sc) with
      | None => (Some invalid_event_error, sm)
      | Some c => exec_event_case event c sm
      end
  end.

(** [func (sm *M) SetState(state State, event Event, invokeOn bool) error]. *)
Definition run_SetState (cases : list on_case) (state event : string) (invokeOn : bool)
    (sm : machine) : option error * machine :=
  let sm := {| sm_state := state; world := world sm; calls := calls sm |} in
  if invokeOn then
    match select entered state cases with
    | None => (None, sm)
    | Some c => exec_stmt event (CallOrReturn (entry c)) sm
    end
  else (None, sm).

(** [func (sm *M) State() State]. *)
Definition run_State (sm : machine) : string := sm_state sm.

(** [func NewM() *M]: the machine starts in [desc.Init]. *)
Definition run_New (desc : Description) (w : W) : machine :=
  {| sm_state := Init desc; world := w; calls := [] |}.

End Machine.

Arguments action {W} _ _ _ _ _.
Arguments condition {W} _ _ _ _ _.
Arguments sm_state {W} _.
Arguments world {W} _.
Arguments calls {W} _.
Arguments Build_machine {W} _ _ _.
Arguments Build_callbacks {W} _ _.
Arguments after_call {W} sm f event w.
Arguments exec_stmt {W} cb event s sm.
Arguments exec_body {W} cb event l sm.
Arguments exec_event_case {W} cb event c sm.
Arguments select {C} label v cases.
Arguments run_Event {W} cb cases event sm.
Arguments run_SetState {W} cb cases state event invokeOn sm.
Arguments run_State {W} sm.
Arguments run_New {W} desc w.

(** ** Relating a piece of the compiler to the text it writes *)

(** [writes g r]: from any buffer, [g] panics as [r] does, or appends the
    pieces [r] returns and nothing else. *)
Definition writes (g : Gen unit) (r : outcome (list string)) : Prop :=
  ∀ buf, g buf = (cs ← r ; Return (tt, buf ++ cs)).


(** ** Stating what a call of [Event] goes through *)

Section Steps.

Context {W : Type}.
Variable cb : callbacks W.
Variable desc : Description.



End Steps.


(** ** Comparing runs and descriptions *)


(** Two descriptions that differ in [Package] at most. *)
Definition differ_only_in_Package (desc desc' : Description) : Prop :=
  States desc = States desc' ∧ MachineName desc = MachineName desc' ∧
  Init desc = Init desc' ∧ Iface desc = Iface desc'.

(** [desc] with another [Package]. *)
Definition with_Package (desc : Description) (package : string) : Description :=
  {| States := States desc; MachineName := MachineName desc;
     Package := package; Init := Init desc; Iface := Iface desc |}.

(** ** Validation errors *)

(** The four kinds of error in a description that [compile] looks for. *)
Inductive error_class :=
| DuplicateState
| DuplicateEvent
| MissingInit
| MissingTarget.

(** The description has an error of the class. *)
Definition present (desc : Description) (c : error_class) : Prop :=
  match c with
  | DuplicateState => ¬ NoDup (Name <$> States desc)
  | DuplicateEvent =>
      ∃ st, st ∈ States desc ∧ ¬ NoDup (Event <$> Transitions st)
  | MissingInit => ∀ st, st ∈ States desc → Name st ≠ Init desc
  | MissingTarget =>
      ∃ st tr, st ∈ States desc ∧ tr ∈ Transitions st ∧ To tr ≠ "" ∧
               ∀ st', st' ∈ States desc → Name st' ≠ To tr
  end.



(** ** Names and the identifiers derived from them *)

Definition state_names (desc : Description) : list string :=
  Name <$> States desc.

Definition event_names (desc : Description) : list string :=
  mjoin ((λ st, Event <$> Transitions st) <$> States desc).

(** Two names that are equal from the second byte on and whose first
    bytes have the same upper-case form (equal names among them). *)
Definition same_but_first_case (a b : string) : Prop :=
  ∃ x y t, a = String x t ∧ b = String y t ∧ ToUpper_first x = ToUpper_first y.

(** [a] and [b] differ at a position both have: no two strings that
    start with them are equal. *)
Fixpoint clash (a b : string) : bool :=
  match a, b with
  | String c a', String d b' => if Ascii.eqb c d then clash a' b' else true
  | _, _ => false
  end.

Definition bytes : list ascii := ascii_of_nat <$> seq 0 256.

(** ** More on the steps of a call, and runs of several calls *)

Section Runs.

Context {W : Type}.
Variable cb : callbacks W.
Variable desc : Description.





End Runs.

(** ** Descriptions that compile *)

(** What [compile] checks on its way: no two states of a name, no two
    transitions of a state on the same event, an initial state that
    exists, no empty state or event name (each is given to [camel]), and
    a state for every target that is named. *)
Definition well_formed (desc : Description) : Prop :=
  NoDup (state_names desc) ∧
  (∀ st, st ∈ States desc → NoDup (Event <$> Transitions st)) ∧
  Init desc ∈ state_names desc ∧
  (∀ n, n ∈ state_names desc ++ event_names desc → n ≠ "") ∧
  (∀ st tr, st ∈ States desc → tr ∈ Transitions st → To tr ≠ "" →
            To tr ∈ state_names desc).

(** ** The callbacks a description names and the generated code calls *)

Definition callback_names (desc : Description) : list string :=
  mjoin ((λ st, On st ::
                mjoin ((λ tr, [Action tr; Condition tr]) <$> Transitions st))
         <$> States desc).

Definition callees_of_stmt (s : stmt) : list callee :=
  match s with
  | CallOrReturn f => [f]
  | SetTo _ => []
  end.

Definition callees_of_event_case (c : event_case) : list callee :=
  match guard c with Some g => [g] | None => [] end ++
  mjoin (callees_of_stmt <$> body c).

Definition callees (code : machine_code) : list callee :=
  (entry <$> SetState_cases code) ++
  mjoin ((λ sc, mjoin (callees_of_event_case <$> event_cases sc))
         <$> Event_cases code).

(** ** Descriptions and runs used as examples *)

(** [strconv.Quote] on a string of printable ASCII characters other than
    the double quote and the backslash: the string between double
    quotes. *)
Definition Quote_printable (s : string) : string := dq +:+ s +:+ dq.

(** Two ways of visiting a map: in the order [map_to_list] lists the
    entries, and in the opposite order. *)
Definition in_order {V : Type} : map_order V :=
  {| visit := λ l, l; visit_perm := λ l, reflexivity l |}.
Definition reversed {V : Type} : map_order V :=
  {| visit := λ l, reverse l; visit_perm := λ l, reverse_Permutation l |}.

Definition all_in_order : traversal :=
  {| order_SetState := in_order; order_state_consts := in_order;
     order_event_consts := in_order; order_Event := in_order |}.
Definition all_reversed : traversal :=
  {| order_SetState := reversed; order_state_consts := reversed;
     order_event_consts := reversed; order_Event := reversed |}.

(** What [compile] leaves in an empty buffer (nothing when it panics). *)
Definition output (o : traversal) (desc : Description) (pkg : string) : Buffer :=
  match compile Quote_printable o desc pkg [] with
  | Return (_, out) => out
  | Panicked _ => []
  end.

(** The machine of the end-to-end scenarios: [idle --start--> running],
    with [onRunning] as the entry action of [running]. *)
Definition start : Transition :=
  {| Event := "start"; To := "running"; Action := ""; Condition := "" |}.
Definition idle : State :=
  {| Name := "idle"; On := ""; Transitions := [start] |}.
Definition running : State :=
  {| Name := "running"; On := "onRunning"; Transitions := [] |}.
Definition idle_running : Description :=
  {| States := [idle; running]; MachineName := "Machine"; Package := "p";
     Init := "idle"; Iface := "" |}.

(** The same machine with a condition and an action on [start], called
    on a collaborator. *)
Definition guarded_start : Transition :=
  {| Event := "start"; To := "running"; Action := "doStart";
     Condition := "canStart" |}.
Definition guarded_idle : State :=
  {| Name := "idle"; On := ""; Transitions := [guarded_start] |}.
Definition guarded : Description :=
  {| States := [guarded_idle; running]; MachineName := "Machine"; Package := "p";
     Init := "idle"; Iface := "Handler" |}.


(** Callbacks whose condition named [which] is false, without error. *)
Definition refusing (which : string) : callbacks nat :=
  {| action := λ f event state n, (None, S n);
     condition := λ f event state n,
       ((if decide (func f = which) then false else true, None), S n) |}.

(** A state without a name. *)
Definition nameless : Description :=
  {| States := [ {| Name := ""; On := ""; Transitions := [] |} ];
     MachineName := "Machine"; Package := "p"; Init := ""; Iface := "" |}.

(** Two states whose names differ in the case of the first letter. *)
Definition cased : Description :=
  {| States := [ {| Name := "idle"; On := "";
                    Transitions := [ {| Event := "go"; To := "Idle"; Action := "";
                                        Condition := "" |} ] |};
                 {| Name := "Idle"; On := "";
                    Transitions := [ {| Event := "Go"; To := "idle"; Action := "";
                                        Condition := "" |} ] |} ];
     MachineName := "Machine"; Package := "p"; Init := "idle"; Iface := "" |}.




(** A machine with a transition that has no target: [tick] is handled
    in [running] by the action [onTick]. *)
Definition tick : Transition :=
  {| Event := "tick"; To := ""; Action := "onTick"; Condition := "" |}.
Definition stop : Transition :=
  {| Event := "stop"; To := "idle"; Action := ""; Condition := "" |}.
Definition ticking : State :=
  {| Name := "running"; On := "onRunning"; Transitions := [tick; stop] |}.
Definition pausable : Description :=
  {| States := [idle; ticking]; MachineName := "Machine"; Package := "p";
     Init := "idle"; Iface := "" |}.

(** * Properties *)

(** ** The outcome and buffer monads *)

Lemma outcome_bind_Return {A B : Type} (a : A) (f : A → outcome B) :
  (Return a ≫= f) = f a.
Proof. reflexivity. Qed.

Lemma outcome_bind_inv {A B : Type} (m : outcome A) (f : A → outcome B) (b : B) :
  (m ≫= f) = Return b → ∃ a, m = Return a ∧ f a = Return b.
Proof. destruct m as [a|p]; [eauto | discriminate]. Qed.

Section Writes.

Variable quote : string → string.

Lemma writes_writef (fmtstr : string) (args : list string) :
  writes (writef quote fmtstr args) (Return [piece quote fmtstr args]).
Proof. intros buf. reflexivity. Qed.

Lemma writes_skip : writes (mret tt) (Return []).
Proof. intros buf. cbn. by rewrite app_nil_r. Qed.

Lemma writes_panic (msg : string) :
  writes (panic msg) (Panicked (PanicString msg)).
Proof. intros buf. reflexivity. Qed.

Lemma writes_seq (g1 g2 : Gen unit) (r1 r2 : outcome (list string)) :
  writes g1 r1 → writes g2 r2 →
  writes (g1 ;; g2) (c1 ← r1 ; c2 ← r2 ; Return (c1 ++ c2)).
Proof.
  intros H1 H2 buf. unfold mbind at 1, Gen_bind. rewrite H1.
  destruct r1 as [c1|p]; cbn; [|done].
  rewrite H2. destruct r2 as [c2|p]; cbn; [|done].
  by rewrite app_assoc.
Qed.

Lemma writes_lift {A : Type} (r : outcome A) (k : A → Gen unit)
    (rk : A → outcome (list string)) :
  (∀ a, writes (k a) (rk a)) →
  writes (a ← lift r ; k a) (a ← r ; rk a).
Proof.
  intros H buf. unfold mbind at 1, Gen_bind, lift.
  destruct r as [a|p]; cbn; [apply H | done].
Qed.

Lemma writes_lift_pair {A B : Type} (r : outcome (A * B)) (k : A * B → Gen unit)
    (rk : A → B → outcome (list string)) :
  (∀ a b, writes (k (a, b)) (rk a b)) →
  writes (x ← lift r ; k x) ('(a, b) ← r ; rk a b).
Proof.
  intros H buf. unfold mbind at 1, Gen_bind, lift.
  destruct r as [[a b]|p]; cbn; [apply H | done].
Qed.

Lemma writes_if {P : Prop} (b : {P} + {¬ P}) (g1 g2 : Gen unit)
    (r1 r2 : outcome (list string)) :
  writes g1 r1 → writes g2 r2 →
  writes (if b then g1 else g2) (if b then r1 else r2).
Proof. by destruct b. Qed.

Lemma writes_ext (g : Gen unit) (r r' : outcome (list string)) :
  writes g r → r = r' → writes g r'.
Proof. by intros H <-. Qed.

Lemma writes_for_each {A C : Type} (l : list A) (body : A → Gen unit)
    (gen : A → outcome C) (pr : C → list string) :
  (∀ x, writes (body x) (c ← gen x ; Return (pr c))) →
  writes (for_each l body) (cs ← mapM gen l ; Return (mjoin (pr <$> cs))).
Proof.
  intros H. induction l as [|x l IH]; simpl.
  - apply writes_skip.
  - eapply writes_ext; [apply writes_seq; [apply H | apply IH]|].
    destruct (gen x) as [c|p]; cbn; [|done].
    destruct (mapM gen l) as [cs|p]; cbn; done.
Qed.

Lemma mapM_total {A C : Type} (f : A → C) (l : list A) :
  mapM (λ x, Return (f x)) l = Return (f <$> l).
Proof. induction l as [|x l IH]; simpl; [done|]. by rewrite IH. Qed.

Lemma join_fmap_join {A C : Type} (f : A → list C) (pr : C → list string) (l : list A) :
  mjoin ((λ x, mjoin (pr <$> f x)) <$> l) = mjoin (pr <$> mjoin (f <$> l)).
Proof.
  induction l as [|x l IH]; [done|].
  rewrite !fmap_cons.
  change (mjoin (pr <$> f x) ++ mjoin ((λ x, mjoin (pr <$> f x)) <$> l)
          = mjoin (pr <$> (f x ++ mjoin (f <$> l)))).
  by rewrite fmap_app, join_app, IH.
Qed.

Lemma join_fmap_singleton {C : Type} (pr : C → string) (l : list C) :
  mjoin ((λ c, [pr c]) <$> l) = pr <$> l.
Proof.
  induction l as [|x l IH]; [done|].
  rewrite !fmap_cons. rewrite <- IH. reflexivity.
Qed.

End Writes.

(** ** The text [compile] writes is the printing of the syntax *)

Section Printing.

Variable quote : string → string.

(** Solves [writes g ?r] for a straight-line [g], leaving the loops. *)
Ltac writes_step :=
  lazymatch goal with
  | |- writes (writef _ _ _) _ => apply writes_writef
  | |- writes (mret tt) _ => apply writes_skip
  | |- writes (panic _) _ => apply writes_panic
  | |- writes (mbind _ (lift (fold_each _ _ _))) _ =>
      eapply writes_lift_pair; intros ? ?
  | |- writes (mbind _ (lift _)) _ => eapply writes_lift; intros ?
  | |- writes (mbind _ _) _ => eapply writes_seq
  | |- writes (if ?b then _ else _) _ => eapply (writes_if b)
  end.

Lemma compile_on_writes (desc : Description) (state : State) :
  writes (compile_on quote desc state)
         (Return (mjoin (printed_on_case quote <$> on_case_of desc state))).
Proof.
  unfold compile_on, on_case_of.
  destruct (decide (On state ≠ "")).
  - eapply writes_ext; [repeat writes_step|]. reflexivity.
  - apply writes_skip.
Qed.

Lemma compile_transition_writes (desc : Description)
    (statesMap : gmap string State) (state : State) (transition : Transition) :
  writes (compile_transition quote desc statesMap state transition)
         (c ← transition_case quote desc statesMap state transition ;
          Return (printed_event_case quote c)).
Proof.
  unfold compile_transition, transition_case.
  destruct (decide (Condition transition ≠ "")),
           (decide (Action transition ≠ "")),
           (decide (To transition ≠ ""));
    try destruct (statesMap !! To transition) as [targetState|];
    try destruct (decide (On targetState ≠ ""));
    (eapply writes_ext; [repeat writes_step | reflexivity]).
Qed.

Lemma compile_state_writes (desc : Description)
    (statesMap : gmap string State) (state : State) :
  writes (compile_state quote desc statesMap state)
         (c ← state_case_of quote desc statesMap state ;
          Return (printed_state_case quote c)).
Proof.
  unfold compile_state, state_case_of.
  eapply writes_ext.
  - repeat writes_step.
    eapply writes_for_each. intros transition.
    apply compile_transition_writes.
  - destruct (mapM _ _) as [cs|p]; reflexivity.
Qed.

Local Opaque piece.

Lemma compile_writes (o : traversal) (desc : Description) (pkg : string) :
  writes (compile quote o desc pkg) (emitted quote o desc pkg).
Proof.
  unfold compile. eapply writes_ext.
  - repeat writes_step.
    + eapply (writes_for_each _ _
         (λ x : string * State, Return (on_case_of desc x.2))
         (λ cs, mjoin (printed_on_case quote <$> cs))).
      intros [k state]. apply compile_on_writes.
    + eapply (writes_for_each _ _
         (λ x : string * State, const_of (Name x.2))
         (λ c, [piece quote "const State%s = %q\n" [c.1; c.2]])).
      intros [k state]. unfold const_of.
      eapply writes_ext; [repeat writes_step|].
      simpl. by destruct (camel (Name state)).
    + eapply (writes_for_each _ _
         (λ x : string * bool, const_of x.1)
         (λ c, [piece quote "const Event%s = %q\n" [c.1; c.2]])).
      intros [k flag]. unfold const_of.
      eapply writes_ext; [repeat writes_step|].
      simpl. by destruct (camel k).
    + eapply (writes_for_each _ _
         (λ x : string * State, state_case_of quote desc _ x.2)
         (printed_state_case quote)).
      intros [k state]. apply compile_state_writes.
  - unfold emitted, generated, printed, printed_types, printed_SetState,
      printed_consts, printed_Event, printed_New.
    destruct (decide (Iface desc ≠ "")) as [Hi|Hi],
             (decide (Iface desc = "")) as [Hj|Hj];
      try (exfalso; by auto);
      (destruct (fold_each (States desc) (index_state quote) (∅, ∅))
         as [[statesMap eventsMap]|p]; cbn; [|done];
       rewrite mapM_total; cbn;
       destruct (decide (statesMap !! Init desc = None)); cbn; [done|];
       destruct (mapM _ (range (order_state_consts o) statesMap)) as [sc|p];
         cbn; [|done];
       destruct (mapM _ (range (order_event_consts o) eventsMap)) as [ec|p];
         cbn; [|done];
       destruct (mapM _ (range (order_Event o) statesMap)) as [cases|p];
         cbn; [|done]).
    all: rewrite join_fmap_join, list_fmap_id, !join_fmap_singleton.
    all: f_equal; rewrite <- !app_assoc; reflexivity.
Qed.


End Printing.

(** ** Indexing the states (lines 311-333) *)

Lemma get_bool_insert (m : gmap string bool) (k k' : string) :
  get_bool (<[k := true]> m) k' = true ↔ k = k' ∨ get_bool m k' = true.
Proof.
  unfold get_bool. destruct (decide (k = k')) as [->|Hne].
  - rewrite lookup_insert_eq. simpl. split; [by left | done].
  - rewrite lookup_insert_ne by done. split; [by right | by intros [?|?]].
Qed.

Section Indexing.

Variable quote : string → string.

Lemma index_transitions_Return (trs : list Transition)
    (tM0 eM0 tM eM : gmap string bool) :
  fold_each trs (index_transition quote) (tM0, eM0) = Return (tM, eM) →
  NoDup (Event <$> trs) ∧
  (∀ k, k ∈ Event <$> trs → get_bool tM0 k = false) ∧
  (∀ k, is_Some (eM !! k) ↔ is_Some (eM0 !! k) ∨ k ∈ Event <$> trs).
Proof.
  revert tM0 eM0. induction trs as [|tr trs IH]; intros tM0 eM0; simpl.
  - intros [= <- <-]. split_and!.
    + constructor.
    + intros k Hin. by apply elem_of_nil in Hin.
    + intros k. split; [by left|]. intros [?|Hin]; [done|].
      by apply elem_of_nil in Hin.
  - unfold index_transition at 1.
    destruct (get_bool tM0 (Event tr)) eqn:Htr; [discriminate|].
    rewrite outcome_bind_Return. intros H.
    apply IH in H as (Hnd & Hfresh & HeM).
    assert (Event tr ∉ Event <$> trs) as Hnotin.
    { intros Hin. apply Hfresh in Hin.
      assert (get_bool (<[Event tr:=true]> tM0) (Event tr) = true) as Ht
        by (apply get_bool_insert; by left).
      congruence. }
    split_and!.
    + by constructor.
    + intros k [->|Hin]%elem_of_cons; [done|].
      specialize (Hfresh k Hin).
      destruct (get_bool tM0 k) eqn:Hk; [|done].
      assert (get_bool (<[Event tr:=true]> tM0) k = true) as Ht
        by (apply get_bool_insert; by right).
      congruence.
    + intros k. rewrite HeM, elem_of_cons.
      destruct (decide (Event tr = k)) as [->|Hne].
      * rewrite lookup_insert_eq. split.
        -- intros _. right. by left.
        -- intros _. left. by eexists.
      * rewrite lookup_insert_ne by done. split.
        -- intros [?|?]; [by left | right; by right].
        -- intros [?|[?|?]]; [by left | congruence | by right].
Qed.


Lemma index_states_Return (states : list State)
    (sM0 sM : gmap string State) (eM0 eM : gmap string bool) :
  fold_each states (index_state quote) (sM0, eM0) = Return (sM, eM) →
  NoDup (Name <$> states) ∧
  (∀ st, st ∈ states → sM0 !! Name st = None) ∧
  (∀ st, st ∈ states → NoDup (Event <$> Transitions st)) ∧
  (∀ k s, sM !! k = Some s ↔ sM0 !! k = Some s ∨ (s ∈ states ∧ Name s = k)) ∧
  (∀ k, is_Some (eM !! k) ↔
        is_Some (eM0 !! k) ∨ ∃ st, st ∈ states ∧ k ∈ Event <$> Transitions st).
Proof.
  revert sM0 eM0. induction states as [|st states IH]; intros sM0 eM0; simpl.
  - intros [= <- <-]. split_and!.
    + constructor.
    + intros st Hin. by apply elem_of_nil in Hin.
    + intros st Hin. by apply elem_of_nil in Hin.
    + intros k s. split; [by left|]. intros [?|[Hin _]]; [done|].
      by apply elem_of_nil in Hin.
    + intros k. split; [by left|]. intros [?|(st & Hin & _)]; [done|].
      by apply elem_of_nil in Hin.
  - unfold index_state at 1.
    destruct (sM0 !! Name st) eqn:Hst; [discriminate|].
    destruct (fold_each (Transitions st) _ _) as [[tM eM1]|p] eqn:Htrs;
      [|discriminate].
    rewrite !outcome_bind_Return. intros H.
    apply index_transitions_Return in Htrs as (Hnd_tr & _ & HeM1).
    apply IH in H as (Hnd & Hfresh & Hevs & HsM & HeM).
    assert (Name st ∉ Name <$> states) as Hnotin.
    { intros (st' & Heq & Hin)%list_elem_of_fmap.
      apply Hfresh in Hin. rewrite <- Heq, lookup_insert_eq in Hin. done. }
    split_and!.
    + by constructor.
    + intros st' [->|Hin]%elem_of_cons; [done|].
      specialize (Hfresh st' Hin).
      rewrite lookup_insert_ne in Hfresh; [done|].
      intros Heq. apply Hnotin. rewrite Heq. by apply list_elem_of_fmap_2.
    + intros st' [->|Hin]%elem_of_cons; auto.
    + intros k s. rewrite HsM.
      destruct (decide (Name st = k)) as [<-|Hne].
      * rewrite lookup_insert_eq, Hst. split.
        -- intros [[= <-]|[Hin <-]]; right; [split; [left|done]|].
           split; [by right|done].
        -- intros [[=]|[[->|Hin]%elem_of_cons Heq]]; [by left|].
           right. done.
      * rewrite lookup_insert_ne by done. split.
        -- intros [?|[Hin Heq]]; [by left|]. right. split; [by right|done].
        -- intros [?|[[->|Hin]%elem_of_cons Heq]]; [by left|done|].
           right. done.
    + intros k. rewrite HeM, HeM1. split.
      * intros [[?|Hin]|(st' & Hin & Hk)]; [by left|right..].
        -- exists st. split; [left|done].
        -- exists st'. split; [by right|done].
      * intros [?|(st' & [->|Hin]%elem_of_cons & Hk)]; [left; by left|..].
        -- left. by right.
        -- right. by exists st'.
Qed.

End Indexing.

(** ** Loops that may panic *)

Lemma mapM_Return {A B : Type} (f : A → outcome B) (l : list A) (k : list B) :
  mapM f l = Return k ↔ Forall2 (λ x y, f x = Return y) l k.
Proof.
  revert k. induction l as [|x l IH]; intros k; simpl.
  - split; [intros [= <-]; constructor | by inversion 1].
  - split.
    + intros H. apply outcome_bind_inv in H as (y & Hy & H).
      apply outcome_bind_inv in H as (k' & Hk' & [= <-]).
      constructor; [done | by apply IH].
    + inversion 1 as [|? y ? k' Hy Hk']; subst.
      apply IH in Hk'. by rewrite Hy, Hk'.
Qed.

Lemma mapM_Panicked {A B : Type} (f : A → outcome B) (l : list A) (p : panic_value) :
  mapM f l = Panicked p → ∃ x, x ∈ l ∧ f x = Panicked p.
Proof.
  induction l as [|x l IH]; simpl; [discriminate|].
  destruct (f x) as [y|p'] eqn:Hx.
  - rewrite outcome_bind_Return. destruct (mapM f l) as [k|p'']; [discriminate|].
    intros [= <-]. destruct IH as (x' & Hin & Hx'); [done|].
    exists x'. split; [by right | done].
  - intros [= <-]. exists x. split; [by left | done].
Qed.

Lemma mapM_Return_all {A B : Type} (f : A → outcome B) (l : list A) :
  (∀ x, x ∈ l → ∃ y, f x = Return y) → ∃ k, mapM f l = Return k.
Proof.
  intros H. destruct (mapM f l) as [k|p] eqn:Hm; [by exists k|].
  apply mapM_Panicked in Hm as (x & Hin & Hx).
  destruct (H x Hin) as [y Hy]. congruence.
Qed.


(** ** Choosing a case *)

Lemma select_Some {C : Type} (label : C → string) (cases : list C) (c : C) :
  NoDup (label <$> cases) → c ∈ cases → select label (label c) cases = Some c.
Proof.
  induction cases as [|c' cases IH]; simpl; [by inversion 2|].
  intros [Hnotin Hnd]%NoDup_cons [->|Hin]%elem_of_cons.
  - by rewrite decide_True.
  - rewrite decide_False; [by apply IH|].
    intros Heq. apply Hnotin. rewrite Heq. by apply list_elem_of_fmap_2.
Qed.

Lemma select_None {C : Type} (label : C → string) (cases : list C) (v : string) :
  v ∉ label <$> cases → select label v cases = None.
Proof.
  induction cases as [|c' cases IH]; simpl; [done|].
  intros Hnotin. rewrite decide_False.
  - apply IH. intros Hin. apply Hnotin. by right.
  - intros Heq. apply Hnotin. rewrite <- Heq. by left.
Qed.

(** The cases a loop builds carry the keys of what it ranged over. *)
Lemma mapM_labels {A C : Type} (f : A → outcome C) (key : A → string)
    (label : C → string) (l : list A) (k : list C) :
  (∀ x y, f x = Return y → label y = key x) →
  mapM f l = Return k → label <$> k = key <$> l.
Proof.
  intros Hkey H. apply mapM_Return in H.
  induction H as [|x y l k Hxy _ IH]; [done|].
  rewrite !fmap_cons. f_equal; [by apply Hkey | done].
Qed.

Lemma mapM_elem_of {A C : Type} (f : A → outcome C) (l : list A) (k : list C) (x : A) :
  mapM f l = Return k → x ∈ l → ∃ y, y ∈ k ∧ f x = Return y.
Proof.
  intros H. apply mapM_Return in H.
  induction H as [|x' y l k Hxy _ IH]; [by inversion 1|].
  intros [->|Hin]%elem_of_cons.
  - exists y. split; [by left | done].
  - destruct (IH Hin) as (y' & Hy' & Hfx). exists y'. split; [by right | done].
Qed.

(** ** Ranging over a map *)

Lemma elem_of_range {V : Type} (o : map_order V) (m : gmap string V) (k : string) (v : V) :
  (k, v) ∈ range o m ↔ m !! k = Some v.
Proof. unfold range. by rewrite visit_perm, elem_of_map_to_list. Qed.

Lemma NoDup_range_keys {V : Type} (o : map_order V) (m : gmap string V) :
  NoDup (range o m).*1.
Proof. unfold range. rewrite visit_perm. apply NoDup_fst_map_to_list. Qed.

(** Whatever order of the entries of a map: some run visits them so. *)
Lemma any_order_possible {V : Type} `{EqDecision V} (m : gmap string V)
    (l : list (string * V)) :
  l ≡ₚ map_to_list m → ∃ o : map_order V, range o m = l.
Proof.
  intros Hl.
  assert (∀ k, (if decide (k = map_to_list m) then l else k) ≡ₚ k) as Hperm.
  { intros k. destruct (decide (k = map_to_list m)) as [->|]; done. }
  exists {| visit := λ k, if decide (k = map_to_list m) then l else k;
            visit_perm := Hperm |}.
  unfold range. simpl. by rewrite decide_True.
Qed.


(** ** What a successful run of [compile] has checked and written *)

Section Generated.

Variable quote : string → string.

Lemma compile_Return (o : traversal) (desc : Description) (pkg : string)
    (buf out : Buffer) :
  compile quote o desc pkg buf = Return (tt, out) →
  ∃ code, generated quote o desc = Return code ∧
          out = buf ++ printed quote desc pkg code.
Proof.
  rewrite compile_writes. unfold emitted.
  destruct (generated quote o desc) as [code|p]; cbn; [|discriminate].
  intros [= <-]. by exists code.
Qed.


Lemma generated_Return (o : traversal) (desc : Description) (code : machine_code) :
  generated quote o desc = Return code →
  ∃ statesMap eventsMap,
    fold_each (States desc) (index_state quote) (∅, ∅) = Return (statesMap, eventsMap) ∧
    statesMap !! Init desc ≠ None ∧
    mapM (λ x, const_of (Name x.2)) (range (order_state_consts o) statesMap)
      = Return (state_consts code) ∧
    mapM (λ x, const_of x.1) (range (order_event_consts o) eventsMap)
      = Return (event_consts code) ∧
    mapM (λ x, state_case_of quote desc statesMap x.2) (range (order_Event o) statesMap)
      = Return (Event_cases code) ∧
    SetState_cases code
      = mjoin ((λ x, on_case_of desc x.2) <$> range (order_SetState o) statesMap).
Proof.
  unfold generated.
  destruct (fold_each _ _ _) as [[statesMap eventsMap]|p]; cbn; [|discriminate].
  destruct (decide (statesMap !! Init desc = None)); cbn; [discriminate|].
  destruct (mapM _ (range (order_state_consts o) statesMap)) as [sc|p] eqn:Hsc;
    cbn; [|discriminate].
  destruct (mapM _ (range (order_event_consts o) eventsMap)) as [ec|p] eqn:Hec;
    cbn; [|discriminate].
  destruct (mapM _ (range (order_Event o) statesMap)) as [cases|p] eqn:Hcases;
    cbn; [|discriminate].
  intros [= <-]. exists statesMap, eventsMap. cbn. by split_and!.
Qed.

(** After indexing, [statesMap] holds the states under their names. *)
Lemma statesMap_lookup (desc : Description)
    (statesMap : gmap string State) (eventsMap : gmap string bool) :
  fold_each (States desc) (index_state quote) (∅, ∅) = Return (statesMap, eventsMap) →
  ∀ k s, statesMap !! k = Some s ↔ s ∈ States desc ∧ Name s = k.
Proof.
  intros H k s. apply index_states_Return in H as (_ & _ & _ & H & _).
  rewrite H, lookup_empty. split; [by intros [?|?] | by right].
Qed.

Lemma eventsMap_lookup (desc : Description)
    (statesMap : gmap string State) (eventsMap : gmap string bool) :
  fold_each (States desc) (index_state quote) (∅, ∅) = Return (statesMap, eventsMap) →
  ∀ k, is_Some (eventsMap !! k) ↔
       ∃ st, st ∈ States desc ∧ k ∈ Event <$> Transitions st.
Proof.
  intros H k. apply index_states_Return in H as (_ & _ & _ & _ & H).
  rewrite H, lookup_empty. split; [intros [[? [=]]|?]; done | by right].
Qed.

End Generated.

(** ** The cases of the generated switches *)

Section Cases.

Variable quote : string → string.

Lemma state_case_of_label (desc : Description) (statesMap : gmap string State)
    (st : State) (sc : state_case) :
  state_case_of quote desc statesMap st = Return sc → in_state sc = Name st.
Proof.
  unfold state_case_of. destruct (mapM _ _) as [cs|p]; cbn; [|discriminate].
  by intros [= <-].
Qed.

Lemma transition_case_label (desc : Description) (statesMap : gmap string State)
    (st : State) (tr : Transition) (c : event_case) :
  transition_case quote desc statesMap st tr = Return c → on_event c = Event tr.
Proof.
  unfold transition_case.
  destruct (decide (To tr ≠ "")); [destruct (statesMap !! To tr)|];
    cbn; try discriminate; by intros [= <-].
Qed.

Lemma range_names (o : map_order State) (desc : Description)
    (statesMap : gmap string State) (eventsMap : gmap string bool) :
  fold_each (States desc) (index_state quote) (∅, ∅) = Return (statesMap, eventsMap) →
  (λ x, Name x.2) <$> range o statesMap = (range o statesMap).*1.
Proof.
  intros Hidx. apply Forall_fmap_ext_1, Forall_forall. intros [k s] Hin.
  apply elem_of_range in Hin.
  by apply (statesMap_lookup quote desc statesMap eventsMap Hidx) in Hin as [_ ?].
Qed.

(** The outer switch of [Event] has one case per state of the
    description, and no other. *)
Lemma Event_case_labels (o : traversal) (desc : Description) (code : machine_code)
    (statesMap : gmap string State) (eventsMap : gmap string bool) :
  fold_each (States desc) (index_state quote) (∅, ∅) = Return (statesMap, eventsMap) →
  mapM (λ x, state_case_of quote desc statesMap x.2) (range (order_Event o) statesMap)
    = Return (Event_cases code) →
  in_state <$> Event_cases code = (range (order_Event o) statesMap).*1.
Proof.
  intros Hidx Hcases.
  rewrite <- (range_names _ desc statesMap eventsMap Hidx).
  apply (mapM_labels _ _ _ _ _ (λ x y, state_case_of_label desc statesMap x.2 y) Hcases).
Qed.

Lemma Event_case_of_state (o : traversal) (desc : Description) (code : machine_code)
    (st : State) :
  generated quote o desc = Return code → st ∈ States desc →
  ∃ statesMap eventsMap sc,
    fold_each (States desc) (index_state quote) (∅, ∅) = Return (statesMap, eventsMap) ∧
    select in_state (Name st) (Event_cases code) = Some sc ∧
    state_case_of quote desc statesMap st = Return sc.
Proof.
  intros (sM & eM & Hidx & _ & _ & _ & Hcases & _)%generated_Return Hst.
  exists sM, eM.
  assert ((Name st, st) ∈ range (order_Event o) sM) as Hin.
  { apply elem_of_range. by apply (statesMap_lookup quote desc sM eM). }
  destruct (mapM_elem_of _ _ _ _ Hcases Hin) as (sc & Hsc & Hst_sc).
  simpl in Hst_sc. exists sc. split_and!; [done| |done].
  rewrite <- (state_case_of_label _ _ _ _ Hst_sc).
  apply select_Some; [|done].
  rewrite (Event_case_labels o desc code sM eM Hidx Hcases).
  apply NoDup_range_keys.
Qed.

Lemma Event_no_case_of (o : traversal) (desc : Description) (code : machine_code)
    (v : string) :
  generated quote o desc = Return code → v ∉ Name <$> States desc →
  select in_state v (Event_cases code) = None.
Proof.
  intros (sM & eM & Hidx & _ & _ & _ & Hcases & _)%generated_Return Hv.
  apply select_None.
  rewrite (Event_case_labels o desc code sM eM Hidx Hcases).
  intros ([k s] & -> & Hin)%list_elem_of_fmap. simpl in Hv.
  apply elem_of_range in Hin.
  apply (statesMap_lookup quote desc sM eM Hidx) in Hin as [Hin <-].
  apply Hv. by apply list_elem_of_fmap_2.
Qed.

(** The inner switch has one case per transition of the state. *)
Lemma event_case_of_transition (desc : Description) (statesMap : gmap string State)
    (st : State) (sc : state_case) (tr : Transition) :
  state_case_of quote desc statesMap st = Return sc →
  NoDup (Event <$> Transitions st) → tr ∈ Transitions st →
  ∃ c, select on_event (Event tr) (event_cases sc) = Some c ∧
       transition_case quote desc statesMap st tr = Return c.
Proof.
  unfold state_case_of.
  destruct (mapM _ _) as [cs|p] eqn:Hcs; cbn; [|discriminate].
  intros [= <-] Hnd Htr. simpl.
  destruct (mapM_elem_of _ _ _ _ Hcs Htr) as (c & Hc & Htr_c).
  exists c. split; [|done].
  rewrite <- (transition_case_label _ _ _ _ _ Htr_c).
  apply select_Some; [|done].
  by rewrite (mapM_labels _ _ _ _ _
                (transition_case_label desc statesMap st) Hcs).
Qed.


(** [compile] calls [camel] on every state name: none is empty. *)
Lemma generated_names_nonempty (o : traversal) (desc : Description)
    (code : machine_code) (st : State) :
  generated quote o desc = Return code → st ∈ States desc → Name st ≠ "".
Proof.
  intros (sM & eM & Hidx & _ & Hsc & _)%generated_Return Hst.
  assert ((Name st, st) ∈ range (order_state_consts o) sM) as Hin.
  { apply elem_of_range. by apply (statesMap_lookup quote desc sM eM). }
  destruct (mapM_elem_of _ _ _ _ Hsc Hin) as (c & _ & Hc).
  simpl in Hc. unfold const_of in Hc. intros Hempty. by rewrite Hempty in Hc.
Qed.


End Cases.

(** ** The [Event] routine *)

Section Event.

Context {W : Type}.
Variable quote : string → string.
Variable cb : callbacks W.

Lemma exec_body_app (event : string) (l1 l2 : list stmt) (sm : machine W) :
  exec_body cb event (l1 ++ l2) sm =
  match exec_body cb event l1 sm with
  | (Some e, sm') => (Some e, sm')
  | (None, sm') => exec_body cb event l2 sm'
  end.
Proof.
  revert sm. induction l1 as [|s l1 IH]; intros sm; simpl; [done|].
  destruct (exec_stmt cb event s sm) as [[e|] sm']; [done | apply IH].
Qed.






(** In a state the description does not have, no case of the outer
    switch is taken, and the switch has no [default]: [Event] returns
    nil. *)
Lemma Event_in_unknown_state (o : traversal) (desc : Description)
    (pkg : string) (out : Buffer) (event : string) (sm : machine W) :
  compile quote o desc pkg [] = Return (tt, out) →
  sm_state sm ∉ Name <$> States desc →
  ∃ code,
    generated quote o desc = Return code ∧
    out = printed quote desc pkg code ∧
    run_Event cb (Event_cases code) event sm = (None, sm).
Proof.
  intros (code & Hgen & ->)%compile_Return Hsm.
  exists code. split_and!; [done..|].
  unfold run_Event.
  by rewrite (Event_no_case_of quote o desc code _ Hgen Hsm).
Qed.


End Event.





(** C4. A machine compiled from the [idle]/[running] description and
    moved by [SetState] to a state the description does not have: a call
    of [Event] returns nil, where the claim has it fail with the error of
    an event that is not valid for the current state. *)
Theorem Event_returns_nil_in_unknown_state :
  ∃ code,
    generated Quote_printable all_in_order idle_running = Return code ∧
    output all_in_order idle_running "main"
      = printed Quote_printable idle_running "main" code ∧
    let sm := (run_SetState (refusing "") (SetState_cases code) "limbo" "" false
                 (run_New idle_running 0)).2 in
    sm_state sm = "limbo" ∧
    run_Event (refusing "") (Event_cases code) "start" sm = (None, sm).
Proof.
  eexists. split; [vm_compute; reflexivity|].
  split; [vm_compute; reflexivity|].
  vm_compute. split; reflexivity.
Qed.

(** ** The order of the maps *)

Section Order.

Variable quote : string → string.




(** C10. [compile] writes the same text for two descriptions that
    differ only in [Package]; the package clause, the second piece
    written, is made of the [pkg] argument. *)
Theorem compile_ignores_Package (o : traversal) (desc desc' : Description)
    (pkg : string) (buf : Buffer) (code : machine_code) :
  differ_only_in_Package desc desc' →
  compile quote o desc pkg buf = compile quote o desc' pkg buf ∧
  printed quote desc pkg code !! 1 = Some (piece quote "package %s\n\n" [pkg]).
Proof.
  destruct desc as [states name package init iface],
           desc' as [states' name' package' init' iface'].
  intros (Hstates & Hname & Hinit & Hiface). simpl in *. subst.
  split; reflexivity.
Qed.

End Order.

Lemma compile_ignores_Package_witness :
  compile Quote_printable all_in_order idle_running "main" []
  = compile Quote_printable all_in_order (with_Package idle_running "other") "main" [] ∧
  printed Quote_printable idle_running "main"
    {| SetState_cases := []; state_consts := []; event_consts := [];
       Event_cases := [] |} !! 1
  = Some (piece Quote_printable "package %s\n\n" ["main"]).
Proof.
  apply (compile_ignores_Package Quote_printable all_in_order idle_running
           (with_Package idle_running "other") "main" []).
  repeat split.
Defined.


(** ** Identifier derivation *)

Lemma camel_nonempty (first : ascii) (rest : string) :
  camel (String first rest) = Return (ToUpper_first first +:+ rest).
Proof. reflexivity. Qed.

(** The first byte is upper-cased as if it were a code point: the two
    bytes of a small e with acute accent (195, 169) become three. *)
Example camel_multibyte_first :
  camel (String (byte_of 195) (String (byte_of 169) "t"))
  = Return (String (byte_of 195) (String (byte_of 131) (String (byte_of 169) "t"))).
Proof. reflexivity. Qed.

(** C6. [camel] indexes the first byte of its argument without looking
    at its length: on the empty string it panics, and so does [compile]
    on a description with a state whose name is empty. *)
Theorem camel_panics_on_empty_name :
  camel "" = Panicked (IndexOutOfRange 0 0) ∧
  compile Quote_printable all_in_order nameless "main" []
    = Panicked (IndexOutOfRange 0 0).
Proof. split; [reflexivity | vm_compute; reflexivity]. Qed.

Lemma elem_of_bytes (x : ascii) : x ∈ bytes.
Proof.
  unfold bytes. apply list_elem_of_fmap.
  exists (nat_of_ascii x). split; [by rewrite ascii_nat_embedding|].
  apply elem_of_seq. pose proof (nat_ascii_bounded x). lia.
Qed.

Lemma clash_app (a b t1 t2 : string) :
  clash a b = true → a +:+ t1 ≠ b +:+ t2.
Proof.
  revert b. induction a as [|c a IH]; intros [|d b]; simpl; try discriminate.
  destruct (Ascii.eqb c d) eqn:Hcd.
  - intros Hclash [= _ Heq]. by apply (IH b).
  - intros _ [= Heq _]. apply Ascii.eqb_neq in Hcd. done.
Qed.

(** The upper-case forms of two first bytes are equal or clash: checked
    on the 256 x 256 pairs. *)
Lemma upper_forms_checked :
  forallb (λ x,
    forallb (λ y,
      String.eqb (ToUpper_first x) (ToUpper_first y)
      || clash (ToUpper_first x) (ToUpper_first y)) bytes) bytes = true.
Proof. vm_compute. reflexivity. Qed.

Lemma upper_forms (x y : ascii) :
  ToUpper_first x = ToUpper_first y ∨
  clash (ToUpper_first x) (ToUpper_first y) = true.
Proof.
  pose proof (proj1 (forallb_forall _ _) upper_forms_checked x
                (proj1 (list_elem_of_In _ _) (elem_of_bytes x))) as Hx.
  pose proof (proj1 (forallb_forall _ _) Hx y
                (proj1 (list_elem_of_In _ _) (elem_of_bytes y))) as Hxy.
  apply orb_true_iff in Hxy as [Hsame|Hclash]; [left|right; exact Hclash].
  apply String.eqb_eq. exact Hsame.
Qed.

Lemma ToUpper_first_app (x y : ascii) (t1 t2 : string) :
  ToUpper_first x +:+ t1 = ToUpper_first y +:+ t2 →
  ToUpper_first x = ToUpper_first y ∧ t1 = t2.
Proof.
  intros Heq. destruct (upper_forms x y) as [Hsame|Hclash].
  - split; [done|].
    rewrite Hsame in Heq. by apply String.app_inj in Heq.
  - by apply (clash_app _ _ t1 t2) in Hclash.
Qed.

(** Two names derive the same identifier exactly when they differ at
    most in the case of their first byte. *)
Lemma camel_collision (n1 n2 id1 id2 : string) :
  camel n1 = Return id1 → camel n2 = Return id2 →
  id1 = id2 ↔ same_but_first_case n1 n2.
Proof.
  destruct n1 as [|x t1], n2 as [|y t2]; simpl; try discriminate.
  intros [= <-] [= <-]. split.
  - intros [Hup ->]%ToUpper_first_app. by exists x, y, t2.
  - intros (x' & y' & t & [= -> ->] & [= -> ->] & ->). done.
Qed.

Section Identifiers.

Variable quote : string → string.

Lemma state_const_written (o : traversal) (desc : Description) (pkg : string)
    (code : machine_code) (n : string) :
  generated quote o desc = Return code → n ∈ state_names desc →
  ∃ id, camel n = Return id ∧
        piece quote "const State%s = %q\n" [id; n] ∈ printed quote desc pkg code.
Proof.
  intros Hgen (st & -> & Hst)%list_elem_of_fmap.
  pose proof Hgen as (sM & eM & Hidx & _ & Hsc & _)%generated_Return.
  assert ((Name st, st) ∈ range (order_state_consts o) sM) as Hin.
  { apply elem_of_range. by apply (statesMap_lookup quote desc sM eM). }
  destruct (mapM_elem_of _ _ _ _ Hsc Hin) as ([id n] & Hc & Hcamel).
  simpl in Hcamel. unfold const_of in Hcamel.
  destruct (camel (Name st)) as [id'|p]; [|discriminate].
  injection Hcamel as -> ->. exists id. split; [done|].
  unfold printed, printed_consts. rewrite !elem_of_app.
  right. right. left. left.
  apply list_elem_of_fmap. eexists. split; [|exact Hc]. reflexivity.
Qed.

Lemma event_const_written (o : traversal) (desc : Description) (pkg : string)
    (code : machine_code) (n : string) :
  generated quote o desc = Return code → n ∈ event_names desc →
  ∃ id, camel n = Return id ∧
        piece quote "const Event%s = %q\n" [id; n] ∈ printed quote desc pkg code.
Proof.
  intros Hgen (evs & Hn & (st & -> & Hst)%list_elem_of_fmap)%list_elem_of_join.
  pose proof Hgen as (sM & eM & Hidx & _ & _ & Hec & _)%generated_Return.
  assert (is_Some (eM !! n)) as [flag Hflag].
  { apply (eventsMap_lookup quote desc sM eM Hidx). by exists st. }
  assert ((n, flag) ∈ range (order_event_consts o) eM) as Hin
    by by apply elem_of_range.
  destruct (mapM_elem_of _ _ _ _ Hec Hin) as ([id n'] & Hc & Hcamel).
  simpl in Hcamel. unfold const_of in Hcamel.
  destruct (camel n) as [id'|p]; [|discriminate].
  injection Hcamel as -> ->. exists id. split; [done|].
  unfold printed, printed_consts. rewrite !elem_of_app.
  right. right. left. right. left.
  apply list_elem_of_fmap. eexists. split; [|exact Hc]. reflexivity.
Qed.

(** C7. [compile] makes no check of the derived identifiers.  For a
    description that compiles, every state name and every event name
    derives an identifier and its constant is written; two names derive
    the same identifier exactly when they are equal from the second byte
    on and their first bytes have the same upper-case form. *)
Theorem identifiers_collide_on_first_byte_case (o : traversal) (desc : Description)
    (pkg : string) (out : Buffer) :
  compile quote o desc pkg [] = Return (tt, out) →
  (∀ n, n ∈ state_names desc →
     ∃ id, camel n = Return id ∧ piece quote "const State%s = %q\n" [id; n] ∈ out) ∧
  (∀ n, n ∈ event_names desc →
     ∃ id, camel n = Return id ∧ piece quote "const Event%s = %q\n" [id; n] ∈ out) ∧
  (∀ n1 n2 id1 id2, camel n1 = Return id1 → camel n2 = Return id2 →
     id1 = id2 ↔ same_but_first_case n1 n2).
Proof.
  intros (code & Hgen & ->)%compile_Return. split_and!.
  - intros n Hn. by apply (state_const_written o).
  - intros n Hn. by apply (event_const_written o).
  - apply camel_collision.
Qed.

End Identifiers.

Lemma identifiers_collide_on_first_byte_case_witness :
  (∀ n, n ∈ state_names cased →
     ∃ id, camel n = Return id ∧
           piece Quote_printable "const State%s = %q\n" [id; n]
             ∈ output all_in_order cased "main") ∧
  (∀ n, n ∈ event_names cased →
     ∃ id, camel n = Return id ∧
           piece Quote_printable "const Event%s = %q\n" [id; n]
             ∈ output all_in_order cased "main") ∧
  (∀ n1 n2 id1 id2, camel n1 = Return id1 → camel n2 = Return id2 →
     id1 = id2 ↔ same_but_first_case n1 n2).
Proof.
  apply (identifiers_collide_on_first_byte_case Quote_printable all_in_order cased
           "main" (output all_in_order cased "main")).
  vm_compute. reflexivity.
Defined.

(** A description with the states [idle] and [Idle] compiles, and the
    constant [StateIdle] is written twice. *)
Lemma compile_accepts_colliding_identifiers :
  ∃ out,
    compile Quote_printable all_in_order cased "main" [] = Return (tt, out) ∧
    "idle" ∈ state_names cased ∧ "Idle" ∈ state_names cased ∧
    camel "idle" = Return "Idle" ∧ camel "Idle" = Return "Idle" ∧
    piece Quote_printable "const State%s = %q\n" ["Idle"; "idle"] ∈ out ∧
    piece Quote_printable "const State%s = %q\n" ["Idle"; "Idle"] ∈ out.
Proof.
  exists (output all_in_order cased "main").
  split; [vm_compute; reflexivity|].
  split; [by left|]. split; [right; by left|].
  split; [reflexivity|]. split; [reflexivity|].
  split; apply list_elem_of_In; vm_compute; tauto.
Qed.

(** ** Validation *)


Section Validation.

Variable quote : string → string.

Lemma index_transitions_Panicked_present (trs : list Transition)
    (tM0 eM0 : gmap string bool) (p : panic_value) :
  fold_each trs (index_transition quote) (tM0, eM0) = Panicked p →
  ¬ NoDup (Event <$> trs) ∨ ∃ tr, tr ∈ trs ∧ get_bool tM0 (Event tr) = true.
Proof.
  revert tM0 eM0. induction trs as [|tr trs IH]; intros tM0 eM0; simpl.
  - discriminate.
  - unfold index_transition at 1.
    destruct (get_bool tM0 (Event tr)) eqn:Htr.
    + intros _. right. exists tr. split; [by left | done].
    + rewrite outcome_bind_Return. intros H.
      apply IH in H as [Hdup|(tr' & Hin & Hget)].
      * left. by intros [_ ?]%NoDup_cons.
      * apply get_bool_insert in Hget as [Heq|Hget].
        -- left. intros [Hnotin _]%NoDup_cons. apply Hnotin.
           rewrite Heq. by apply list_elem_of_fmap_2.
        -- right. exists tr'. split; [by right | done].
Qed.


Lemma index_states_Panicked_present (states : list State)
    (sM0 : gmap string State) (eM0 : gmap string bool) (p : panic_value) :
  fold_each states (index_state quote) (sM0, eM0) = Panicked p →
  ¬ NoDup (Name <$> states) ∨
  (∃ st, st ∈ states ∧ sM0 !! Name st ≠ None) ∨
  (∃ st, st ∈ states ∧ ¬ NoDup (Event <$> Transitions st)).
Proof.
  revert sM0 eM0. induction states as [|st states IH]; intros sM0 eM0; simpl.
  - discriminate.
  - unfold index_state at 1. destruct (sM0 !! Name st) eqn:Hst.
    + intros _. right. left. exists st. split; [by left | by rewrite Hst].
    + destruct (fold_each (Transitions st) _ _) as [[tM eM1]|p'] eqn:Htrs.
      * rewrite !outcome_bind_Return. intros H.
        apply IH in H as [Hdup|[(st' & Hin & Hlook)|(st' & Hin & Hdup)]].
        -- left. by intros [_ ?]%NoDup_cons.
        -- destruct (decide (Name st = Name st')) as [Heq|Hne].
           ++ left. intros [Hnotin _]%NoDup_cons. apply Hnotin.
              rewrite Heq. by apply list_elem_of_fmap_2.
           ++ rewrite lookup_insert_ne in Hlook by done.
              right. left. exists st'. split; [by right | done].
        -- right. right. exists st'. split; [by right | done].
      * intros _. right. right. exists st. split; [by left|].
        apply index_transitions_Panicked_present in Htrs
          as [Hdup|(tr & _ & Hget)]; [done|].
        unfold get_bool in Hget. by rewrite lookup_empty in Hget.
Qed.

(** Indexing succeeds exactly on the descriptions without duplicates. *)
Lemma index_states_succeeds (desc : Description) :
  ¬ present desc DuplicateState → ¬ present desc DuplicateEvent →
  ∃ statesMap eventsMap,
    fold_each (States desc) (index_state quote) (∅, ∅) = Return (statesMap, eventsMap).
Proof.
  intros HdupS HdupE.
  destruct (fold_each (States desc) (index_state quote) (∅, ∅))
    as [[sM eM]|p] eqn:Hidx; [by exists sM, eM|].
  apply index_states_Panicked_present in Hidx
    as [Hdup|[(st & _ & Hlook)|Hdup]]; [done| |done].
  by rewrite lookup_empty in Hlook.
Qed.






Lemma transition_case_Return_target (desc : Description)
    (statesMap : gmap string State) (st : State) (tr : Transition) (c : event_case) :
  transition_case quote desc statesMap st tr = Return c →
  To tr ≠ "" → is_Some (statesMap !! To tr).
Proof.
  unfold transition_case. intros Hc Hto.
  rewrite (decide_True (P := To tr ≠ "")) in Hc by done.
  destruct (statesMap !! To tr); [by eexists | discriminate].
Qed.



End Validation.










(** ** The end-to-end scenario

    The machine [idle --start--> running] starts in [idle]; [start]
    calls [onRunning] with the event and the new state and leaves the
    machine in [running]; a second [start] is refused and changes
    nothing. *)
Example end_to_end_scenario :
  ∃ code,
    generated Quote_printable all_in_order idle_running = Return code ∧
    let sm0 := run_New idle_running 0 in
    let first := run_Event (refusing "") (Event_cases code) "start" sm0 in
    let second := run_Event (refusing "") (Event_cases code) "start" first.2 in
    run_State sm0 = "idle" ∧
    first.1 = None ∧
    run_State first.2 = "running" ∧
    calls first.2 = [ {| called := callee_of idle_running "onRunning";
                         with_event := "start"; with_state := "running" |} ] ∧
    second = (Some invalid_event_error, first.2).
Proof.
  eexists. split; [vm_compute; reflexivity|].
  vm_compute. repeat split.
Qed.

(** The text of one case of [Event], as [compile] writes it for the
    transition [guarded_start]. *)
Example printed_guarded_start :
  String.concat ""
    (printed_event_case Quote_printable
       {| on_event := "start";
          guard := Some (callee_of guarded "canStart");
          body := [ CallOrReturn (callee_of guarded "doStart");
                    SetTo "running";
                    CallOrReturn (callee_of guarded "onRunning") ] |})
  = lit "\t\tcase " +:+ dq +:+ "start" +:+ dq +:+ lit ":\n" +:+
    lit "\t\t\tif ok, err := sm.iface.canStart(event, sm.state); true {\n" +:+
    lit "\t\t\tif err != nil { return err }\n" +:+
    lit "\t\t\tif ok{\n" +:+
    lit "\t\t\tif err := sm.iface.doStart(event, sm.state); err != nil {\n" +:+
    lit "\t\t\t\treturn err\n" +:+
    lit "\t\t\t}\n" +:+
    lit "\t\t\tsm.state = " +:+ dq +:+ "running" +:+ dq +:+ lit "\n" +:+
    lit "\t\t\tif err := sm.iface.onRunning(event, sm.state); err != nil {\n" +:+
    lit "\t\t\t\treturn err\n" +:+
    lit "\t\t\t}\n" +:+
    lit "\t\t\t}}\n".
Proof. vm_compute. reflexivity. Qed.

(** * Further properties of the generated routines *)


Lemma mapM_elem_of_inv {A B : Type} (f : A → outcome B) (l : list A)
    (k : list B) (y : B) :
  mapM f l = Return k → y ∈ k → ∃ x, x ∈ l ∧ f x = Return y.
Proof.
  intros H. apply mapM_Return in H.
  induction H as [|x y' l k Hxy _ IH]; [by intros ?%elem_of_nil|].
  intros [->|Hin]%elem_of_cons.
  - exists x. split; [by left | done].
  - destruct (IH Hin) as (x' & Hx' & Hfx). exists x'. split; [by right | done].
Qed.

Section Dispatch.

Context {W : Type}.
Variable quote : string → string.
Variable cb : callbacks W.





End Dispatch.

Section Calls.

Context {W : Type}.
Variable quote : string → string.
Variable cb : callbacks W.








End Calls.








(** * Further properties of the compiler *)

Section Accepted.

Variable quote : string → string.

(** [compile] calls [camel] on every event name: none is empty. *)
Lemma generated_events_nonempty (o : traversal) (desc : Description)
    (code : machine_code) (n : string) :
  generated quote o desc = Return code → n ∈ event_names desc → n ≠ "".
Proof.
  intros Hgen Hn Hempty.
  destruct (event_const_written quote o desc "" code n Hgen Hn) as (id & Hid & _).
  by rewrite Hempty in Hid.
Qed.

Lemma generated_well_formed (o : traversal) (desc : Description)
    (code : machine_code) :
  generated quote o desc = Return code → well_formed desc.
Proof.
  intros Hgen.
  pose proof Hgen as (sM & eM & Hidx & Hinit & _)%generated_Return.
  pose proof (index_states_Return quote _ _ _ _ _ Hidx) as (HndS & _ & HndE & _).
  pose proof (statesMap_lookup quote desc sM eM Hidx) as HsM.
  split_and!.
  - exact HndS.
  - exact HndE.
  - destruct (sM !! Init desc) as [st|] eqn:Hlook; [|done].
    apply HsM in Hlook as [Hst <-]. by apply list_elem_of_fmap_2.
  - intros n [(st & -> & Hst)%list_elem_of_fmap|Hn]%elem_of_app.
    + by apply (generated_names_nonempty quote o desc code).
    + by apply (generated_events_nonempty o desc code).
  - intros st tr Hst Htr Hto.
    destruct (Event_case_of_state quote o desc code st Hgen Hst)
      as (sM' & eM' & sc & Hidx' & _ & Hsc).
    rewrite Hidx in Hidx'. injection Hidx' as <- <-.
    destruct (event_case_of_transition quote desc sM st sc tr Hsc (HndE st Hst) Htr)
      as (c & _ & Hc).
    destruct (transition_case_Return_target quote _ _ _ _ _ Hc Hto)
      as [target Htarget].
    apply HsM in Htarget as [Hin <-]. by apply list_elem_of_fmap_2.
Qed.

Lemma well_formed_generated (o : traversal) (desc : Description) :
  well_formed desc → ∃ code, generated quote o desc = Return code.
Proof.
  intros (HndS & HndE & Hinit & Hnames & Htargets).
  destruct (index_states_succeeds quote desc) as (sM & eM & Hidx).
  { intros Hdup. by apply Hdup. }
  { intros (st & Hst & Hdup). by apply Hdup, HndE. }
  pose proof (statesMap_lookup quote desc sM eM Hidx) as HsM.
  pose proof (eventsMap_lookup quote desc sM eM Hidx) as HeM.
  assert (∀ n, n ∈ state_names desc → is_Some (sM !! n)) as Hlook.
  { intros n (st & -> & Hst)%list_elem_of_fmap. exists st. by apply HsM. }
  unfold generated. rewrite Hidx. cbn.
  rewrite decide_False; cbn.
  2: { destruct (Hlook _ Hinit) as [st Hst]. by rewrite Hst. }
  destruct (mapM_Return_all (λ x : string * State, const_of (Name x.2))
              (range (order_state_consts o) sM)) as [sc ->].
  { intros [k s] [Hs _]%elem_of_range%HsM. simpl. unfold const_of.
    destruct (Name s) as [|c n] eqn:Hn; [|by eexists].
    destruct (Hnames (Name s)); [|done].
    apply elem_of_app. left. by apply list_elem_of_fmap_2. }
  cbn.
  destruct (mapM_Return_all (λ x : string * bool, const_of x.1)
              (range (order_event_consts o) eM)) as [ec ->].
  { intros [k flag] Hk%elem_of_range. simpl. unfold const_of.
    destruct k as [|c n]; [|by eexists].
    destruct (Hnames ""); [|done].
    apply elem_of_app. right.
    assert (is_Some (eM !! "")) as (st' & Hst' & Hev)%HeM by by eexists.
    apply list_elem_of_join. eexists. split; [exact Hev|].
    by apply (list_elem_of_fmap_2 (λ st, Event <$> Transitions st)). }
  cbn.
  destruct (mapM_Return_all (λ x : string * State, state_case_of quote desc sM x.2)
              (range (order_Event o) sM)) as [cases ->]; [|by eexists].
  intros [k st] [Hst _]%elem_of_range%HsM. simpl. unfold state_case_of.
  destruct (mapM_Return_all (transition_case quote desc sM st) (Transitions st))
    as [cs ->]; [|by eexists].
  intros tr Htr. unfold transition_case.
  destruct (decide (To tr ≠ "")) as [Hto|Hto]; [|by eexists].
  destruct (Hlook _ (Htargets st tr Hst Htr Hto)) as [target ->]. by eexists.
Qed.

(** X8. [compile] returns exactly on the well-formed descriptions: those
    without two states of a name or two transitions of a state on one
    event, whose initial state exists, whose state and event names are
    not empty and whose named targets exist.  Neither the package name,
    the buffer nor the order of the maps matters. *)
Theorem compile_returns_iff_well_formed (o : traversal) (desc : Description)
    (pkg : string) (buf : Buffer) :
  (∃ out, compile quote o desc pkg buf = Return (tt, out)) ↔ well_formed desc.
Proof.
  split.
  - intros (out & (code & Hgen & _)%compile_Return).
    by apply (generated_well_formed o desc code).
  - intros [code Hgen]%(well_formed_generated o).
    exists (buf ++ printed quote desc pkg code).
    rewrite compile_writes. unfold emitted. by rewrite Hgen.
Qed.

(** X9. [compile] only appends: what the buffer held stays in front,
    and what is written after it, or the panic, is what a run on an
    empty buffer gives. *)
Theorem compile_appends (o : traversal) (desc : Description) (pkg : string)
    (buf : Buffer) :
  compile quote o desc pkg buf =
  match compile quote o desc pkg [] with
  | Return (_, pieces) => Return (tt, buf ++ pieces)
  | Panicked p => Panicked p
  end.
Proof.
  rewrite !compile_writes.
  by destruct (emitted quote o desc pkg) as [pieces|p].
Qed.

End Accepted.

Section Shape.

Variable quote : string → string.

Lemma range_keys_state_names (o : map_order State) (desc : Description)
    (statesMap : gmap string State) (eventsMap : gmap string bool) :
  fold_each (States desc) (index_state quote) (∅, ∅) = Return (statesMap, eventsMap) →
  (range o statesMap).*1 ≡ₚ state_names desc.
Proof.
  intros Hidx.
  pose proof (index_states_Return quote _ _ _ _ _ Hidx) as (HndS & _).
  apply NoDup_Permutation; [apply NoDup_range_keys | exact HndS |].
  intros k. split.
  - intros ([k' st] & -> & Hin)%list_elem_of_fmap. simpl.
    apply elem_of_range in Hin.
    apply (statesMap_lookup quote desc statesMap eventsMap Hidx) in Hin as [Hst <-].
    by apply list_elem_of_fmap_2.
  - intros (st & -> & Hst)%list_elem_of_fmap.
    apply (list_elem_of_fmap_2 fst _ (Name st, st)), elem_of_range.
    by apply (statesMap_lookup quote desc statesMap eventsMap Hidx).
Qed.

Lemma range_keys_event_names (o : map_order bool) (desc : Description)
    (statesMap : gmap string State) (eventsMap : gmap string bool) (k : string) :
  fold_each (States desc) (index_state quote) (∅, ∅) = Return (statesMap, eventsMap) →
  k ∈ (range o eventsMap).*1 ↔ k ∈ event_names desc.
Proof.
  intros Hidx.
  pose proof (eventsMap_lookup quote desc statesMap eventsMap Hidx k) as HeM.
  split.
  - intros ([k' flag] & -> & Hin)%list_elem_of_fmap. simpl.
    apply elem_of_range in Hin.
    destruct (proj1 HeM) as (st & Hst & Hev); [by eexists|].
    apply list_elem_of_join. eexists. split; [exact Hev|].
    by apply (list_elem_of_fmap_2 (λ st, Event <$> Transitions st)).
  - intros (evs & Hk & (st & -> & Hst)%list_elem_of_fmap)%list_elem_of_join.
    destruct (proj2 HeM) as [flag Hflag]; [by exists st|].
    by apply (list_elem_of_fmap_2 fst _ (k, flag)), elem_of_range.
Qed.

Lemma SetState_case_labels (o : traversal) (desc : Description)
    (statesMap : gmap string State) (eventsMap : gmap string bool) :
  fold_each (States desc) (index_state quote) (∅, ∅) = Return (statesMap, eventsMap) →
  NoDup (entered <$> mjoin ((λ x : string * State, on_case_of desc x.2)
                            <$> range (order_SetState o) statesMap)).
Proof.
  intros Hidx.
  pose proof (NoDup_range_keys (order_SetState o) statesMap) as Hnd.
  rewrite <- (range_names quote _ desc statesMap eventsMap Hidx) in Hnd.
  induction (range (order_SetState o) statesMap) as [|[k s] l IH]; [constructor|].
  rewrite fmap_cons in Hnd. apply NoDup_cons in Hnd as [Hnotin Hnd].
  rewrite fmap_cons.
  change (NoDup (entered <$> on_case_of desc s ++
                   mjoin ((λ x : string * State, on_case_of desc x.2) <$> l))).
  unfold on_case_of at 1. destruct (decide (On s ≠ "")); simpl; [|by apply IH].
  constructor; [|by apply IH].
  intros (c & Hc & (cs & Hin & ([k' s'] & -> & Hl)%list_elem_of_fmap)
            %list_elem_of_join)%list_elem_of_fmap.
  simpl in *. apply Hnotin. unfold on_case_of in Hin.
  destruct (decide (On s' ≠ "")); [|by apply elem_of_nil in Hin].
  apply list_elem_of_singleton in Hin as ->. simpl in Hc. rewrite Hc.
  by apply (list_elem_of_fmap_2 (λ x : string * State, Name x.2) _ (k', s')).
Qed.

(** X10. For a description that compiles, no [switch] of the generated
    code has two cases with the same label.  The outer switch of [Event]
    has one case for each state of the description and no other, and the
    inner switch of a state has one case for each of its transitions, in
    the order of the description. *)
Theorem generated_switches_have_distinct_cases (o : traversal)
    (desc : Description) (pkg : string) (out : Buffer) :
  compile quote o desc pkg [] = Return (tt, out) →
  ∃ code,
    generated quote o desc = Return code ∧
    out = printed quote desc pkg code ∧
    NoDup (entered <$> SetState_cases code) ∧
    NoDup (in_state <$> Event_cases code) ∧
    in_state <$> Event_cases code ≡ₚ state_names desc ∧
    ∀ sc, sc ∈ Event_cases code →
      NoDup (on_event <$> event_cases sc) ∧
      ∃ st, st ∈ States desc ∧ in_state sc = Name st ∧
            on_event <$> event_cases sc = Event <$> Transitions st.
Proof.
  intros (code & Hgen & ->)%compile_Return.
  exists code. split_and!; [done..| | | |].
  - pose proof Hgen as (sM & eM & Hidx & _ & _ & _ & _ & ->)%generated_Return.
    by apply (SetState_case_labels o desc sM eM).
  - pose proof Hgen as (sM & eM & Hidx & _ & _ & _ & Hcases & _)%generated_Return.
    rewrite (Event_case_labels quote o desc code sM eM Hidx Hcases).
    apply NoDup_range_keys.
  - pose proof Hgen as (sM & eM & Hidx & _ & _ & _ & Hcases & _)%generated_Return.
    rewrite (Event_case_labels quote o desc code sM eM Hidx Hcases).
    by apply (range_keys_state_names _ desc sM eM).
  - intros sc Hsc.
    pose proof Hgen as (sM & eM & Hidx & _ & _ & _ & Hcases & _)%generated_Return.
    pose proof (index_states_Return quote _ _ _ _ _ Hidx) as (_ & _ & HndE & _).
    destruct (mapM_elem_of_inv _ _ _ _ Hcases Hsc) as ([k st] & Hks & Hst_sc).
    simpl in Hst_sc. apply elem_of_range in Hks.
    apply (statesMap_lookup quote desc sM eM Hidx) in Hks as [Hst _].
    pose proof (state_case_of_label quote _ _ _ _ Hst_sc) as Hlabel.
    unfold state_case_of in Hst_sc.
    destruct (mapM _ (Transitions st)) as [cs|p] eqn:Hcs; [|discriminate].
    injection Hst_sc as <-. simpl in *.
    pose proof (mapM_labels _ _ _ _ _ (transition_case_label quote desc sM st) Hcs)
      as Hevents.
    split; [rewrite Hevents; by apply HndE|].
    by exists st.
Qed.

Lemma const_of_Return (n : string) (y : string * string) :
  const_of n = Return y → y.2 = n ∧ camel n = Return y.1.
Proof.
  unfold const_of. destruct (camel n) as [id|]; [|discriminate].
  by intros [= <-].
Qed.

(** X11. For a description that compiles, one constant is written for
    each state and one for each event name, however many transitions
    name the event; the identifier of each is what [camel] derives from
    the name. *)
Theorem one_constant_per_name (o : traversal) (desc : Description)
    (pkg : string) (out : Buffer) :
  compile quote o desc pkg [] = Return (tt, out) →
  ∃ code,
    generated quote o desc = Return code ∧
    out = printed quote desc pkg code ∧
    (state_consts code).*2 ≡ₚ state_names desc ∧
    NoDup (event_consts code).*2 ∧
    (∀ n, n ∈ (event_consts code).*2 ↔ n ∈ event_names desc) ∧
    (∀ c, c ∈ state_consts code ++ event_consts code → camel c.2 = Return c.1).
Proof.
  intros (code & Hgen & ->)%compile_Return.
  exists code.
  pose proof Hgen as (sM & eM & Hidx & _ & Hsc & Hec & _)%generated_Return.
  assert ((state_consts code).*2
          = (λ x : string * State, Name x.2) <$> range (order_state_consts o) sM)
    as HscL.
  { apply (mapM_labels _ _ snd _ _ (λ x y H, proj1 (const_of_Return _ y H)) Hsc). }
  assert ((event_consts code).*2 = (range (order_event_consts o) eM).*1) as HecL.
  { apply (mapM_labels _ _ snd _ _ (λ x y H, proj1 (const_of_Return _ y H)) Hec). }
  split_and!; [done..| | | |].
  - rewrite HscL, (range_names quote _ desc sM eM Hidx).
    by apply (range_keys_state_names _ desc sM eM).
  - rewrite HecL. apply NoDup_range_keys.
  - intros n. rewrite HecL. by apply (range_keys_event_names _ desc sM eM).
  - intros c [Hc|Hc]%elem_of_app.
    + destruct (mapM_elem_of_inv _ _ _ _ Hsc Hc) as (x & _ & Hx).
      apply const_of_Return in Hx as [Hn Hid]. by rewrite Hn.
    + destruct (mapM_elem_of_inv _ _ _ _ Hec Hc) as (x & _ & Hx).
      apply const_of_Return in Hx as [Hn Hid]. by rewrite Hn.
Qed.

Lemma On_callback_name (desc : Description) (st : State) :
  st ∈ States desc → On st ∈ callback_names desc.
Proof.
  intros Hst. apply list_elem_of_join. eexists. split; [by left|].
  by apply (list_elem_of_fmap_2
              (λ st, On st :: mjoin ((λ tr, [Action tr; Condition tr])
                                     <$> Transitions st))).
Qed.

Lemma transition_callback_names (desc : Description) (st : State) (tr : Transition) :
  st ∈ States desc → tr ∈ Transitions st →
  Action tr ∈ callback_names desc ∧ Condition tr ∈ callback_names desc.
Proof.
  intros Hst Htr.
  assert (∀ n, n ∈ [Action tr; Condition tr] → n ∈ callback_names desc) as Hn.
  { intros n Hin. apply list_elem_of_join. eexists. split.
    - right. apply list_elem_of_join. eexists. split; [exact Hin|].
      by apply (list_elem_of_fmap_2 (λ tr, [Action tr; Condition tr])).
    - by apply (list_elem_of_fmap_2
                  (λ st, On st :: mjoin ((λ tr, [Action tr; Condition tr])
                                         <$> Transitions st))). }
  split; apply Hn; [by left | right; by left].
Qed.

(** X12. For a description that compiles, the generated code calls only
    callbacks the description names: every call in [SetState] and [Event]
    is of an entry action, an action or a condition of the description,
    as a function when the description has no [Iface] and as a method of
    [sm.iface] when it has one. *)
Theorem generated_code_calls_named_callbacks (o : traversal)
    (desc : Description) (pkg : string) (out : Buffer) :
  compile quote o desc pkg [] = Return (tt, out) →
  ∃ code,
    generated quote o desc = Return code ∧
    out = printed quote desc pkg code ∧
    ∀ f, f ∈ callees code →
      ∃ name, name ∈ callback_names desc ∧ name ≠ "" ∧
              func f = name ∧
              receiver f = if decide (Iface desc ≠ "") then "sm.iface." else "".
Proof.
  intros (code & Hgen & ->)%compile_Return.
  exists code. split_and!; [done..|].
  pose proof Hgen as (sM & eM & Hidx & _ & _ & _ & Hcases & Hset)%generated_Return.
  pose proof (statesMap_lookup quote desc sM eM Hidx) as HsM.
  intros f [Hf|Hf]%elem_of_app.
  - rewrite Hset in Hf.
    apply list_elem_of_fmap in Hf
      as (c & -> & (cs & Hc & ([k st] & -> & Hks)%list_elem_of_fmap)
                     %list_elem_of_join).
    simpl in Hc. apply elem_of_range, HsM in Hks as [Hst _].
    unfold on_case_of in Hc. destruct (decide (On st ≠ "")) as [Hon|];
      [|by apply elem_of_nil in Hc].
    apply list_elem_of_singleton in Hc as ->. simpl.
    exists (On st). split_and!; [by apply On_callback_name | done..].
  - apply list_elem_of_join in Hf
      as (fs & Hf & (sc & -> & Hsc)%list_elem_of_fmap).
    apply list_elem_of_join in Hf
      as (fs & Hf & (c & -> & Hc)%list_elem_of_fmap).
    destruct (mapM_elem_of_inv _ _ _ _ Hcases Hsc) as ([k st] & Hks & Hst_sc).
    simpl in Hst_sc. apply elem_of_range, HsM in Hks as [Hst _].
    unfold state_case_of in Hst_sc.
    destruct (mapM _ (Transitions st)) as [cs|p] eqn:Hcs; [|discriminate].
    injection Hst_sc as <-. simpl in Hc.
    destruct (mapM_elem_of_inv _ _ _ _ Hcs Hc) as (tr & Htr & Htr_c).
    destruct (transition_callback_names desc st tr Hst Htr) as [Hact Hcond].
    unfold transition_case in Htr_c.
    assert (∀ target, sM !! To tr = Some target → On target ∈ callback_names desc)
      as Htarget.
    { intros target [Ht _]%HsM. by apply On_callback_name. }
    unfold callees_of_event_case in Hf.
    destruct (decide (To tr ≠ "")); [destruct (sM !! To tr) as [target|]|];
      cbn in Htr_c; try discriminate; injection Htr_c as <-; simpl in Hf;
      destruct (decide (Condition tr ≠ "")), (decide (Action tr ≠ ""));
      try destruct (decide (On target ≠ ""));
      simpl in Hf;
      repeat (apply elem_of_cons in Hf as [->|Hf]);
      try (by apply elem_of_nil in Hf);
      (match goal with
       | |- ∃ name, _ ∧ _ ∧ func ?g = name ∧ _ => exists (func g)
       end);
      simpl; (split_and!; [eauto|done|reflexivity|reflexivity]).
Qed.

End Shape.

Lemma generated_switches_have_distinct_cases_witness :
  ∃ code,
    generated Quote_printable all_reversed pausable = Return code ∧
    output all_reversed pausable "main" = printed Quote_printable pausable "main" code ∧
    NoDup (entered <$> SetState_cases code) ∧
    NoDup (in_state <$> Event_cases code) ∧
    in_state <$> Event_cases code ≡ₚ state_names pausable ∧
    ∀ sc, sc ∈ Event_cases code →
      NoDup (on_event <$> event_cases sc) ∧
      ∃ st, st ∈ States pausable ∧ in_state sc = Name st ∧
            on_event <$> event_cases sc = Event <$> Transitions st.
Proof.
  apply (generated_switches_have_distinct_cases Quote_printable all_reversed
           pausable "main" (output all_reversed pausable "main")).
  vm_compute. reflexivity.
Defined.

Lemma one_constant_per_name_witness :
  ∃ code,
    generated Quote_printable all_in_order pausable = Return code ∧
    output all_in_order pausable "main" = printed Quote_printable pausable "main" code ∧
    (state_consts code).*2 ≡ₚ state_names pausable ∧
    NoDup (event_consts code).*2 ∧
    (∀ n, n ∈ (event_consts code).*2 ↔ n ∈ event_names pausable) ∧
    (∀ c, c ∈ state_consts code ++ event_consts code → camel c.2 = Return c.1).
Proof.
  apply (one_constant_per_name Quote_printable all_in_order pausable "main"
           (output all_in_order pausable "main")).
  vm_compute. reflexivity.
Defined.

Lemma generated_code_calls_named_callbacks_witness :
  ∃ code,
    generated Quote_printable all_in_order guarded = Return code ∧
    output all_in_order guarded "main" = printed Quote_printable guarded "main" code ∧
    ∀ f, f ∈ callees code →
      ∃ name, name ∈ callback_names guarded ∧ name ≠ "" ∧
              func f = name ∧
              receiver f = if decide (Iface guarded ≠ "") then "sm.iface." else "".
Proof.
  apply (generated_code_calls_named_callbacks Quote_printable all_in_order
           guarded "main" (output all_in_order guarded "main")).
  vm_compute. reflexivity.
Defined.

(** * The first program *)

Section FirstProgram.

Variable quote : string → string.

Local Opaque piece.

Ltac first_step :=
  lazymatch goal with
  | |- writes (writef _ _ _) _ => apply writes_writef
  | |- writes (mret tt) _ => apply writes_skip
  | |- writes (panic _) _ => apply writes_panic
  | |- writes (mbind _ (lift (fold_each _ _ _))) _ =>
      eapply writes_lift_pair; intros ? ?
  | |- writes (mbind _ (lift _)) _ => eapply writes_lift; intros ?
  | |- writes (mbind _ _) _ => eapply writes_seq
  | |- writes (if ?b then _ else _) _ => eapply (writes_if b)
  end.

Lemma First_compile_transition_writes (statesMap : gmap string State)
    (state : State) (transition : Transition) :
  writes (First.compile_transition quote statesMap state transition)
         (First.transition_pieces quote statesMap state transition).
Proof.
  unfold First.compile_transition, First.transition_pieces.
  destruct (statesMap !! To transition) as [targetState|].
  - destruct (decide (On targetState ≠ ""));
      (eapply writes_ext; [repeat first_step | reflexivity]).
  - apply writes_panic.
Qed.

Lemma First_compile_state_writes (statesMap : gmap string State) (state : State) :
  writes (First.compile_state quote statesMap state)
         (First.state_pieces quote statesMap state).
Proof.
  unfold First.compile_state, First.state_pieces.
  eapply writes_ext.
  - repeat first_step.
    eapply (writes_for_each _ _ (First.transition_pieces quote statesMap state)
              (λ c, c)).
    intros transition. eapply writes_ext;
      [apply First_compile_transition_writes|].
    destruct (First.transition_pieces quote statesMap state transition);
      reflexivity.
  - destruct (mapM _ _) as [cs|p]; [|reflexivity].
    cbn. by rewrite list_fmap_id.
Qed.

Lemma First_compile_writes (o : traversal) (desc : Description) (pkg : string) :
  writes (First.compile quote o desc pkg) (First.emitted quote o desc pkg).
Proof.
  unfold First.compile. eapply writes_ext.
  - repeat first_step.
    + eapply (writes_for_each _ _
         (λ x : string * State, const_of (Name x.2))
         (λ c, [piece quote "const State%s = %q\n" [c.1; c.2]])).
      intros [k state]. unfold const_of.
      eapply writes_ext; [repeat first_step|].
      simpl. by destruct (camel (Name state)).
    + eapply (writes_for_each _ _
         (λ x : string * bool, const_of x.1)
         (λ c, [piece quote "const Event%s = %q\n" [c.1; c.2]])).
      intros [k flag]. unfold const_of.
      eapply writes_ext; [repeat first_step|].
      simpl. by destruct (camel k).
    + lazymatch goal with
      | |- writes (for_each (range _ ?m) _) _ =>
          eapply (writes_for_each _ _
            (λ x : string * State, First.state_pieces quote m x.2) (λ c, c));
          intros [k state]; eapply writes_ext;
            [apply First_compile_state_writes|];
          simpl; destruct (First.state_pieces quote m state); reflexivity
      end.
  - unfold First.emitted.
    destruct (fold_each (States desc) (index_state quote) (∅, ∅))
      as [[statesMap eventsMap]|p]; cbn; [|done].
    destruct (mapM _ (range (order_state_consts o) statesMap)) as [sc|p];
      cbn; [|done].
    destruct (mapM _ (range (order_event_consts o) eventsMap)) as [ec|p];
      cbn; [|done].
    destruct (mapM _ (range (order_Event o) statesMap)) as [cases|p];
      cbn; [|done].
    rewrite list_fmap_id, !join_fmap_singleton. reflexivity.
Qed.

Lemma First_transition_pieces_Return (statesMap : gmap string State)
    (st : State) (tr : Transition) :
  (∃ ps, First.transition_pieces quote statesMap st tr = Return ps) ↔
  is_Some (statesMap !! To tr).
Proof.
  unfold First.transition_pieces.
  destruct (statesMap !! To tr) as [target|]; split.
  - by eexists.
  - by eexists.
  - by intros [ps [=]].
  - by intros [? [=]].
Qed.

Lemma First_emitted_well_formed (o : traversal) (desc : Description)
    (pkg : string) (pieces : list string) :
  First.emitted quote o desc pkg = Return pieces → First_well_formed desc.
Proof.
  unfold First.emitted.
  destruct (fold_each (States desc) (index_state quote) (∅, ∅))
    as [[sM eM]|p] eqn:Hidx; cbn; [|discriminate].
  destruct (mapM _ (range (order_state_consts o) sM)) as [sc|p] eqn:Hsc;
    cbn; [|discriminate].
  destruct (mapM _ (range (order_event_consts o) eM)) as [ec|p] eqn:Hec;
    cbn; [|discriminate].
  destruct (mapM _ (range (order_Event o) sM)) as [cases|p] eqn:Hcases;
    cbn; [|discriminate].
  intros _.
  pose proof (index_states_Return quote _ _ _ _ _ Hidx) as (HndS & _ & HndE & _).
  pose proof (statesMap_lookup quote desc sM eM Hidx) as HsM.
  pose proof (eventsMap_lookup quote desc sM eM Hidx) as HeM.
  split_and!; [done..| | |].
  - intros st Hst Hempty.
    assert ((Name st, st) ∈ range (order_state_consts o) sM) as Hin
      by by apply elem_of_range, HsM.
    destruct (mapM_elem_of _ _ _ _ Hsc Hin) as (c & _ & Hc).
    simpl in Hc. unfold const_of in Hc. by rewrite Hempty in Hc.
  - intros st tr Hst Htr Hempty.
    assert (is_Some (eM !! Event tr)) as [flag Hflag].
    { apply HeM. exists st. split; [done|]. by apply list_elem_of_fmap_2. }
    assert ((Event tr, flag) ∈ range (order_event_consts o) eM) as Hin
      by by apply elem_of_range.
    destruct (mapM_elem_of _ _ _ _ Hec Hin) as (c & _ & Hc).
    simpl in Hc. unfold const_of in Hc. by rewrite Hempty in Hc.
  - intros st tr Hst Htr.
    assert ((Name st, st) ∈ range (order_Event o) sM) as Hin
      by by apply elem_of_range, HsM.
    destruct (mapM_elem_of _ _ _ _ Hcases Hin) as (ps & _ & Hps).
    simpl in Hps. unfold First.state_pieces in Hps.
    destruct (mapM _ (Transitions st)) as [cs|p] eqn:Hcs; [|discriminate].
    destruct (mapM_elem_of _ _ _ _ Hcs Htr) as (c & _ & Hc).
    destruct (proj1 (First_transition_pieces_Return sM st tr)) as [target Ht];
      [by eexists|].
    apply HsM in Ht as [Ht Hn]. by exists target.
Qed.

Lemma First_well_formed_emitted (o : traversal) (desc : Description) (pkg : string) :
  First_well_formed desc → ∃ pieces, First.emitted quote o desc pkg = Return pieces.
Proof.
  intros (HndS & HndE & HnameS & HnameE & Htargets).
  destruct (index_states_succeeds quote desc) as (sM & eM & Hidx).
  { intros Hdup. by apply Hdup. }
  { intros (st & Hst & Hdup). by apply Hdup, HndE. }
  pose proof (statesMap_lookup quote desc sM eM Hidx) as HsM.
  pose proof (eventsMap_lookup quote desc sM eM Hidx) as HeM.
  unfold First.emitted. rewrite Hidx. cbn.
  destruct (mapM_Return_all (λ x : string * State, const_of (Name x.2))
              (range (order_state_consts o) sM)) as [sc ->].
  { intros [k s] [Hs _]%elem_of_range%HsM. simpl. unfold const_of.
    destruct (Name s) as [|c n] eqn:Hn; [|by eexists].
    by destruct (HnameS s Hs). }
  cbn.
  destruct (mapM_Return_all (λ x : string * bool, const_of x.1)
              (range (order_event_consts o) eM)) as [ec ->].
  { intros [k flag] Hk%elem_of_range. simpl. unfold const_of.
    destruct k as [|c n]; [|by eexists].
    assert (is_Some (eM !! "")) as (st' & Hst' & Hev)%HeM by by eexists.
    apply list_elem_of_fmap in Hev as (tr & Hev & Htr).
    by destruct (HnameE st' tr Hst' Htr). }
  cbn.
  destruct (mapM_Return_all (λ x : string * State, First.state_pieces quote sM x.2)
              (range (order_Event o) sM)) as [cases ->]; [|by eexists].
  intros [k st] [Hst _]%elem_of_range%HsM. simpl. unfold First.state_pieces.
  destruct (mapM_Return_all (First.transition_pieces quote sM st) (Transitions st))
    as [cs ->]; [|by eexists].
  intros tr Htr. apply First_transition_pieces_Return.
  destruct (Htargets st tr Hst Htr) as (target & Ht & Hn).
  exists target. by apply HsM.
Qed.

(** X16. The first [compile] returns exactly on the descriptions without
    two states of a name or two transitions of a state on one event,
    whose state and event names are not empty, and in which every
    transition has a target that exists: it does not look at [Init], and
    it refuses a transition without target. *)
Theorem First_compile_returns_iff (o : traversal) (desc : Description)
    (pkg : string) (buf : Buffer) :
  (∃ out, First.compile quote o desc pkg buf = Return (tt, out)) ↔
  First_well_formed desc.
Proof.
  rewrite First_compile_writes. split.
  - intros [out Hout].
    destruct (First.emitted quote o desc pkg) as [pieces|p] eqn:Hemit;
      [|discriminate].
    by apply (First_emitted_well_formed o desc pkg pieces).
  - intros [pieces Hemit]%(First_well_formed_emitted o desc pkg).
    rewrite Hemit. by eexists.
Qed.

(** X17. The two programs accept the same descriptions, but for two
    checks: a description the first [compile] accepts and whose initial
    state exists is one the second accepts and in which every transition
    has a target, and conversely. *)
Theorem First_and_second_compile_accept (o o' : traversal) (desc : Description)
    (pkg : string) (buf : Buffer) :
  (∃ out, First.compile quote o desc pkg buf = Return (tt, out)) ∧
  Init desc ∈ state_names desc
  ↔
  (∃ out, compile quote o' desc pkg buf = Return (tt, out)) ∧
  (∀ st tr, st ∈ States desc → tr ∈ Transitions st → To tr ≠ "").
Proof.
  rewrite First_compile_writes, compile_writes. unfold emitted. split.
  - intros [[out Hout] Hinit].
    destruct (First.emitted quote o desc pkg) as [pieces|p] eqn:Hemit;
      [|discriminate].
    apply First_emitted_well_formed in Hemit
      as (HndS & HndE & HnameS & HnameE & Htargets).
    assert (∀ st tr, st ∈ States desc → tr ∈ Transitions st → To tr ≠ "") as Hto.
    { intros st tr Hst Htr. destruct (Htargets st tr Hst Htr) as (t & Ht & <-).
      by apply HnameS. }
    split; [|done].
    destruct (well_formed_generated quote o' desc) as [code ->]; [|by eexists].
    split_and!; [done..| |].
    + intros n [(st & -> & Hst)%list_elem_of_fmap|Hn]%elem_of_app;
        [by apply HnameS|].
      apply list_elem_of_join in Hn
        as (evs & Hn & (st & -> & Hst)%list_elem_of_fmap).
      apply list_elem_of_fmap in Hn as (tr & -> & Htr). by apply (HnameE st).
    + intros st tr Hst Htr _. destruct (Htargets st tr Hst Htr) as (t & Ht & <-).
      by apply list_elem_of_fmap_2.
  - intros [[out Hout] Hto].
    destruct (generated quote o' desc) as [code|p] eqn:Hgen; [|discriminate].
    apply generated_well_formed in Hgen
      as (HndS & HndE & Hinit & Hnames & Htargets).
    split; [|done].
    destruct (First_well_formed_emitted o desc pkg) as [pieces ->]; [|by eexists].
    split_and!; [done..| | |].
    + intros st Hst. apply Hnames, elem_of_app. left.
      by apply list_elem_of_fmap_2.
    + intros st tr Hst Htr. apply Hnames, elem_of_app. right.
      apply list_elem_of_join. eexists. split; [by apply list_elem_of_fmap_2|].
      by apply (list_elem_of_fmap_2 (λ st, Event <$> Transitions st)).
    + intros st tr Hst Htr.
      pose proof (Htargets st tr Hst Htr (Hto st tr Hst Htr)) as Hin.
      apply list_elem_of_fmap in Hin as (target & Hn & Ht).
      by exists target.
Qed.

End FirstProgram.

(** * Further properties of [camel] *)

Lemma string_length_app (a b : string) :
  String.length (a +:+ b) = String.length a + String.length b.
Proof.
  induction a as [|c a IH]; [done|].
  change (S (String.length (a +:+ b)) = S (String.length a + String.length b)).
  by rewrite IH.
Qed.

(** On the 256 bytes: a byte below 128 becomes one byte, itself or the
    capital of a small ASCII letter, which [ToUpper_first] leaves as it
    is; a byte from 128 on becomes two bytes. *)
Lemma ToUpper_first_checked :
  forallb (λ c,
    if (N_of_ascii c <? 128)%N then
      match ToUpper_first c with
      | String C EmptyString =>
          (N_of_ascii C =?
             if ((97 <=? N_of_ascii c) && (N_of_ascii c <=? 122))%N
             then N_of_ascii c - 32 else N_of_ascii c)%N
          && String.eqb (ToUpper_first C) (String C EmptyString)
      | _ => false
      end
    else Nat.eqb (String.length (ToUpper_first c)) 2) bytes = true.
Proof. vm_compute. reflexivity. Qed.

Lemma ToUpper_first_byte (c : ascii) :
  if (N_of_ascii c <? 128)%N then
    ∃ C, ToUpper_first c = String C EmptyString ∧
         ToUpper_first C = String C EmptyString ∧
         N_of_ascii C =
           (if ((97 <=? N_of_ascii c) && (N_of_ascii c <=? 122))%N
            then N_of_ascii c - 32 else N_of_ascii c)%N
  else String.length (ToUpper_first c) = 2.
Proof.
  pose proof (proj1 (forallb_forall _ _) ToUpper_first_checked c
                (proj1 (list_elem_of_In _ _) (elem_of_bytes c))) as Hc.
  simpl in Hc. destruct (N_of_ascii c <? 128)%N.
  - destruct (ToUpper_first c) as [|C [|? ?]]; try discriminate.
    apply andb_true_iff in Hc as [Hn Hfix].
    exists C. split_and!; [done| |].
    + apply String.eqb_eq. exact Hfix.
    + apply N.eqb_eq. exact Hn.
  - apply Nat.eqb_eq. exact Hc.
Qed.

(** X14. On a name that starts with an ASCII byte, [camel] changes the
    first byte at most: a small letter becomes its capital, any other
    byte stays, and the rest of the name is kept.  The identifier it
    derives is a name it leaves as it is. *)
Theorem camel_on_ascii_first_byte (c : ascii) (rest : string) :
  (N_of_ascii c < 128)%N →
  ∃ C,
    camel (String c rest) = Return (String C rest) ∧
    camel (String C rest) = Return (String C rest) ∧
    N_of_ascii C =
      (if ((97 <=? N_of_ascii c) && (N_of_ascii c <=? 122))%N
       then N_of_ascii c - 32 else N_of_ascii c)%N.
Proof.
  intros Hc%N.ltb_lt. pose proof (ToUpper_first_byte c) as H.
  rewrite Hc in H. destruct H as (C & HC & Hfix & Hn).
  exists C. split_and!; [| |done].
  - simpl. by rewrite HC.
  - simpl. by rewrite Hfix.
Qed.

Lemma camel_on_ascii_first_byte_witness :
  ∃ C,
    camel (String "i" "dle") = Return (String C "dle") ∧
    camel (String C "dle") = Return (String C "dle") ∧
    N_of_ascii C =
      (if ((97 <=? N_of_ascii "i") && (N_of_ascii "i" <=? 122))%N
       then N_of_ascii "i" - 32 else N_of_ascii "i")%N.
Proof.
  apply (camel_on_ascii_first_byte "i" "dle"). reflexivity.
Defined.

(** X15. [camel] keeps the length of a name that starts with an ASCII
    byte and makes any other name one byte longer: a first byte from 128
    on is replaced by the two bytes of a code point, whatever character
    the byte was part of. *)
Theorem camel_length (c : ascii) (rest : string) :
  ∃ id,
    camel (String c rest) = Return (id +:+ rest) ∧
    String.length (id +:+ rest) =
      String.length (String c rest) + (if (N_of_ascii c <? 128)%N then 0 else 1).
Proof.
  exists (ToUpper_first c). split; [reflexivity|].
  rewrite string_length_app. pose proof (ToUpper_first_byte c) as H.
  destruct (N_of_ascii c <? 128)%N.
  - destruct H as (C & -> & _). simpl. lia.
  - rewrite H. simpl. lia.
Qed.

(** * The panics of [compile] *)

Section Panics.

Variable quote : string → string.


End Panics.

